(** * EmbeddedSignals: the connection registry and its dispatch

    A shallow embedding of [src/connection.hpp] and [src/signalObject.hpp].

    - A [Connection<ParamPack...>] is a record of two object pointers and two
      pointers to member functions; the four [is...] predicates are pointer
      comparisons.
    - [SignalObject::_connections<ParamPack...>] is a
      [std::vector<Connection<ParamPack...>*>].  The vector is modelled by its
      storage block: an iterator is a position in the block, [erase] moves the
      tail one slot down and leaves the slot behind the new end as it was, and
      [push_back] writes behind the end, or moves to a new block when the
      capacity is used up.  The connections themselves live on a heap with
      [new] and [delete].
    - A range-based [for] reads [begin()] and [end()] once, before the first
      iteration.  Both loops of [SignalObject] are therefore a walk over the
      positions from [0] up to the size at entry, in the block that was
      current at entry, whatever the body does to the vector meanwhile.
    - A step that no implementation of the library gives an outcome to makes
      the operation return [None]: a read through a deleted pointer, an
      [erase] at or behind [end()], a read in a block that the vector has
      given back.
    - A slot is arbitrary code of the program.  What matters here is the
      sequence of [connect] and [disconnect] calls it makes on the channel
      it is called from; the program's slots are a parameter, [slot_body],
      and a call of a slot is recorded as an [Invocation]. *)

From stdpp Require Import base option list.
From Stdlib Require Import Lia.

Set Default Proof Using "Type".

(** ** Pointers *)

(** [SignalObject*]; [0] is [nullptr]. *)
Abbreviation ptr := nat.
(** A pointer to a member function of [SignalObject] taking [ParamPack...];
    [0] is the null member pointer. *)
Abbreviation mptr := nat.
(** [Connection<ParamPack...>*]; [0] is [nullptr]. *)
Abbreviation addr := nat.

Definition nullptr : nat := 0.

(** Contextual conversion of a pointer to [bool]. *)
Definition nonnull (p : nat) : bool := negb (Nat.eqb p nullptr).

(** ** connection.hpp *)

Record Connection := {
  _sender : ptr;
  _receiver : ptr;
  _signal : mptr;
  _slot : mptr
}.

Global Instance Connection_eq_dec : EqDecision Connection.
Proof. solve_decision. Defined.

Definition isSender (c : Connection) (sender : ptr) : bool :=
  Nat.eqb sender (_sender c).
Definition isReceiver (c : Connection) (receiver : ptr) : bool :=
  Nat.eqb receiver (_receiver c).
Definition isSignal (c : Connection) (signal : mptr) : bool :=
  Nat.eqb signal (_signal c).
Definition isSlot (c : Connection) (slot : mptr) : bool :=
  Nat.eqb slot (_slot c).

(** ** The heap of connections

    Address [S i] is cell [i]; a deleted cell is [None].  [new] never hands
    out an address twice, so a pointer to a deleted connection stays
    recognisable. *)

Abbreviation heap := (list (option Connection)).

Definition deref (h : heap) (p : addr) : option Connection :=
  match p with
  | 0 => None
  | S i => match h !! i with Some (Some c) => Some c | _ => None end
  end.

Definition new_Connection (h : heap) (c : Connection) : heap * addr :=
  (h ++ [Some c], S (length h)).

Definition delete_Connection (h : heap) (p : addr) : heap :=
  match p with
  | 0 => h
  | S i => <[i := None]> h
  end.

(** ** std::vector<Connection*>

    [vec_data] lists the slots of the storage block that have been written;
    the first [vec_size] of them are the elements.  [vec_block] names the
    block, so that an iterator taken before a reallocation can be told from
    one into the current block. *)

Record vector := {
  vec_data : list addr;
  vec_size : nat;
  vec_capacity : nat;
  vec_block : nat
}.

Definition elements (v : vector) : list addr := take (vec_size v) (vec_data v).

(** [erase(begin() + i)]: the elements behind [i] move one slot down, the end
    moves down by one, the slot it leaves keeps its value. *)
Definition erase (i : nat) (v : vector) : option vector :=
  if decide (i < vec_size v) then
    Some {| vec_data := take i (vec_data v)
                        ++ drop (S i) (take (vec_size v) (vec_data v))
                        ++ drop (vec_size v - 1) (vec_data v);
            vec_size := vec_size v - 1;
            vec_capacity := vec_capacity v;
            vec_block := vec_block v |}
  else None.

(** The test of the loop of [disconnect] on a record. *)
Definition exact_match (sender receiver : ptr) (signal slot : mptr)
    (c : Connection) : bool :=
  isSender c sender && isReceiver c receiver && isSignal c signal && isSlot c slot.

(** What the loop of [disconnect] leaves of the records [l] when [test] is
    its test: a record that passes goes, and the record behind it moves into
    its place and is not tested. *)
Fixpoint sweep (test : Connection -> bool) (l : list Connection)
    : list Connection :=
  match l with
  | [] => []
  | c :: l' =>
      if test c
      then match l' with [] => [] | d :: l'' => d :: sweep test l'' end
      else c :: sweep test l'
  end.

(** The record [connect] constructs. *)
Definition tuple (sender receiver : ptr) (signal slot : mptr) : Connection :=
  {| _sender := sender; _receiver := receiver; _signal := signal; _slot := slot |}.

Section Channel.

(** The argument tuple of the channel: [ParamPack...]. *)
Variable Args : Type.

(** The capacity a full vector of the given capacity asks for (the library's
    choice; the vector takes at least one slot more than it has). *)
Variable growth : nat -> nat.

Definition push_back (p : addr) (v : vector) : vector :=
  if decide (vec_size v < vec_capacity v) then
    {| vec_data := take (vec_size v) (vec_data v) ++ p :: drop (S (vec_size v)) (vec_data v);
       vec_size := S (vec_size v);
       vec_capacity := vec_capacity v;
       vec_block := vec_block v |}
  else
    {| vec_data := take (vec_size v) (vec_data v) ++ [p];
       vec_size := S (vec_size v);
       vec_capacity := Nat.max (S (vec_size v)) (growth (vec_capacity v));
       vec_block := S (vec_block v) |}.

(** ** signalObject.hpp *)

(** One channel: the connections allocated for one parameter pack and the
    static member [_connections<ParamPack...>]. *)
Record channel := {
  objects : heap;
  _connections : vector
}.

(** The records of the channel, in the order of the vector. *)
Definition records (w : channel) : list Connection :=
  omap (deref (objects w)) (elements (_connections w)).

Definition connect (sender receiver : ptr) (signal slot : mptr) (w : channel) : channel :=
  let '(h, connection) :=
    new_Connection (objects w) (tuple sender receiver signal slot) in
  {| objects := h; _connections := push_back connection (_connections w) |}.

(** The body of the loop of [disconnect], at position [iterator] (the hidden
    iterator of the range-based [for] and the counter [iterator] advance
    together). *)
Definition disconnect_step (sender receiver : ptr) (signal slot : mptr)
    (iterator : nat) (w : channel) : option channel :=
  match vec_data (_connections w) !! iterator with
  | None => None
  | Some connection =>
      match deref (objects w) connection with
      | None => None
      | Some c =>
          if exact_match sender receiver signal slot c
          then
            match erase iterator (_connections w) with
            | None => None
            | Some v =>
                Some {| objects := delete_Connection (objects w) connection;
                        _connections := v |}
            end
          else Some w
      end
  end.

Fixpoint disconnect_loop (sender receiver : ptr) (signal slot : mptr)
    (remaining iterator : nat) (w : channel) : option channel :=
  match remaining with
  | 0 => Some w
  | S remaining' =>
      match disconnect_step sender receiver signal slot iterator w with
      | None => None
      | Some w' =>
          disconnect_loop sender receiver signal slot remaining' (S iterator) w'
      end
  end.

Definition disconnect (sender receiver : ptr) (signal slot : mptr) (w : channel)
    : option channel :=
  disconnect_loop sender receiver signal slot (vec_size (_connections w)) 0 w.

(** What a slot does to the registry while it runs: the calls of [connect]
    and [disconnect] it makes on its own channel, in order. *)
Inductive registry_call :=
  | Connect (sender receiver : ptr) (signal slot : mptr)
  | Disconnect (sender receiver : ptr) (signal slot : mptr).

Definition is_Connect (o : registry_call) : bool :=
  match o with Connect _ _ _ _ => true | Disconnect _ _ _ _ => false end.

(** The slots of the program: [slot_body receiver slot args] is the sequence
    of registry calls made when [slot] is called on [receiver] with [args]. *)
Variable slot_body : ptr -> mptr -> Args -> list registry_call.

Definition run_call (o : registry_call) (w : channel) : option channel :=
  match o with
  | Connect sender receiver signal slot => Some (connect sender receiver signal slot w)
  | Disconnect sender receiver signal slot => disconnect sender receiver signal slot w
  end.

Fixpoint run_calls (os : list registry_call) (w : channel) : option channel :=
  match os with
  | [] => Some w
  | o :: os' =>
      match run_call o w with
      | None => None
      | Some w' => run_calls os' w'
      end
  end.

(** One call of a slot, as seen from outside. *)
Record Invocation := {
  callee : ptr;
  method : mptr;
  arguments : Args
}.

(** [Connection::fireSlot]. *)
Definition fireSlot (c : Connection) (args : Args) (w : channel)
    : option (channel * list Invocation) :=
  if nonnull (_receiver c) && nonnull (_slot c) then
    match run_calls (slot_body (_receiver c) (_slot c) args) w with
    | None => None
    | Some w' =>
        Some (w', [{| callee := _receiver c; method := _slot c; arguments := args |}])
    end
  else Some (w, []).

(** The body of the loop of [fireAllSlots] at position [pos] of the block
    [blk] that the loop started on. *)
Definition fire_step (sender : ptr) (signal : mptr) (args : Args)
    (blk pos : nat) (w : channel) : option (channel * list Invocation) :=
  if decide (blk = vec_block (_connections w)) then
    match vec_data (_connections w) !! pos with
    | None => None
    | Some connection =>
        if nonnull sender && nonnull connection then
          match deref (objects w) connection with
          | None => None
          | Some c =>
              if isSender c sender && isSignal c signal
              then fireSlot c args w
              else Some (w, [])
          end
        else Some (w, [])
    end
  else None.

Fixpoint fire_loop (sender : ptr) (signal : mptr) (args : Args)
    (remaining blk pos : nat) (w : channel) : option (channel * list Invocation) :=
  match remaining with
  | 0 => Some (w, [])
  | S remaining' =>
      match fire_step sender signal args blk pos w with
      | None => None
      | Some (w', called) =>
          match fire_loop sender signal args remaining' blk (S pos) w' with
          | None => None
          | Some (w'', called') => Some (w'', called ++ called')
          end
      end
  end.

Definition fireAllSlots (sender : ptr) (signal : mptr) (args : Args) (w : channel)
    : option (channel * list Invocation) :=
  fire_loop sender signal args
    (vec_size (_connections w)) (vec_block (_connections w)) 0 w.

(** The test of the loop of [fireAllSlots] on a record. *)
Definition fired (sender : ptr) (signal : mptr) (c : Connection) : bool :=
  nonnull sender && (isSender c sender && isSignal c signal).

(** The slot call [Connection::fireSlot] makes for a record, if any. *)
Definition handler_calls (args : Args) (c : Connection) : list Invocation :=
  if nonnull (_receiver c) && nonnull (_slot c)
  then [{| callee := _receiver c; method := _slot c; arguments := args |}]
  else [].

(** The registry calls made by that slot call. *)
Definition handler_body (args : Args) (c : Connection) : list registry_call :=
  if nonnull (_receiver c) && nonnull (_slot c)
  then slot_body (_receiver c) (_slot c) args
  else [].

(** The slot calls of an emission over the records [l], in order. *)
Definition dispatch (sender : ptr) (signal : mptr) (args : Args)
    (l : list Connection) : list Invocation :=
  flat_map (handler_calls args) (List.filter (fired sender signal) l).

(** The registry calls the slots of that emission make, in order. *)
Definition reentered (sender : ptr) (signal : mptr) (args : Args)
    (l : list Connection) : list registry_call :=
  flat_map (handler_body args) (List.filter (fired sender signal) l).

(** The record a [connect] appends. *)
Definition connected (o : registry_call) : list Connection :=
  match o with
  | Connect sender receiver signal slot => [tuple sender receiver signal slot]
  | Disconnect _ _ _ _ => []
  end.

(** [w'] is [w] after some [push_back]s that found room in the block. *)
Record grows (w w' : channel) : Prop := {
  grows_block : vec_block (_connections w') = vec_block (_connections w);
  grows_capacity : vec_capacity (_connections w') = vec_capacity (_connections w);
  grows_size : vec_size (_connections w) <= vec_size (_connections w');
  grows_data : forall i, i < vec_size (_connections w) ->
      vec_data (_connections w') !! i = vec_data (_connections w) !! i;
  grows_objects : forall p c,
      deref (objects w) p = Some c -> deref (objects w') p = Some c
}.

(** [connect] for each record of [ts], in order. *)
Definition connect_all (ts : list Connection) (w : channel) : channel :=
  foldl (fun w c => connect (_sender c) (_receiver c) (_signal c) (_slot c) w) w ts.

(** The calls of one slot of one receiver among [calls]. *)
Definition calls_to (receiver : ptr) (slot : mptr) (calls : list Invocation)
    : list Invocation :=
  List.filter
    (fun i => Nat.eqb (callee i) receiver && Nat.eqb (method i) slot) calls.

(** A slot is quiet in an emission when it makes no registry call. *)
Definition quiet (sender : ptr) (signal : mptr) (args : Args) (w : channel) : Prop :=
  forall c, c ∈ records w -> fired sender signal c = true ->
    handler_body args c = [].

End Channel.

Arguments callee {Args} _.
Arguments method {Args} _.
Arguments arguments {Args} _.
Arguments fireSlot {Args} growth slot_body c args w.
Arguments fire_step {Args} growth slot_body sender signal args blk pos w.
Arguments fire_loop {Args} growth slot_body sender signal args remaining blk pos w.
Arguments fireAllSlots {Args} growth slot_body sender signal args w.
Arguments handler_calls {Args} args c.
Arguments handler_body {Args} slot_body args c.
Arguments dispatch {Args} sender signal args l.
Arguments reentered {Args} slot_body sender signal args l.
Arguments quiet {Args} slot_body sender signal args w.
Arguments calls_to {Args} receiver slot calls.

(** The channel before the first [connect]. *)
Definition empty_channel : channel :=
  {| objects := [];
     _connections := {| vec_data := []; vec_size := 0; vec_capacity := 0; vec_block := 0 |} |}.

(** ** The states a program can reach

    The elements lie in the written part of the block, the block has room for
    what was written, and the elements are pairwise distinct pointers to
    connections that have not been deleted. *)
Record wf (w : channel) : Prop := {
  wf_size : vec_size (_connections w) <= length (vec_data (_connections w));
  wf_capacity : length (vec_data (_connections w)) <= vec_capacity (_connections w);
  wf_alive : Forall (fun p => is_Some (deref (objects w) p)) (elements (_connections w));
  wf_distinct : NoDup (elements (_connections w))
}.

(** ** One channel per parameter pack

    [_connections<ParamPack...>] is a variable template: each parameter pack
    has a vector of its own, and [connect], [disconnect] and [fireAllSlots]
    instantiated at a pack touch that vector only. *)

Section Registry.
Variable Signature : Type.
Context `{EqDecision Signature}.
Variable Args : Signature -> Type.
Variable growth : nat -> nat.
Variable slot_body : forall sig, ptr -> mptr -> Args sig -> list registry_call.

Definition registry := Signature -> channel.

Definition store (sig : Signature) (w : channel) (R : registry) : registry :=
  fun sig' => if decide (sig' = sig) then w else R sig'.

Definition connect_in (sig : Signature) (sender receiver : ptr)
    (signal slot : mptr) (R : registry) : registry :=
  store sig (connect growth sender receiver signal slot (R sig)) R.

Definition disconnect_in (sig : Signature) (sender receiver : ptr)
    (signal slot : mptr) (R : registry) : option registry :=
  match disconnect sender receiver signal slot (R sig) with
  | None => None
  | Some w => Some (store sig w R)
  end.

Definition fireAllSlots_in (sig : Signature) (sender : ptr) (signal : mptr)
    (args : Args sig) (R : registry)
    : option (registry * list (Invocation (Args sig))) :=
  match fireAllSlots growth (slot_body sig) sender signal args (R sig) with
  | None => None
  | Some (w, calls) => Some (store sig w R, calls)
  end.

End Registry.

Arguments store {Signature _} sig w R.
Arguments connect_in {Signature _} growth sig sender receiver signal slot R.
Arguments disconnect_in {Signature _} sig sender receiver signal slot R.
Arguments fireAllSlots_in {Signature _ Args} growth slot_body sig sender signal args R.

(** ** Examples *)

(** A library that doubles the capacity of a full vector. *)
Definition doubling (c : nat) : nat := 2 * c.

(** Slots that leave the registry alone. *)
Definition plain_slots : ptr -> mptr -> nat -> list registry_call :=
  fun _ _ _ => [].

(** The slot of receiver [2] removes its own binding and binds receiver [9]
    in its place; the other slots leave the registry alone. *)
Definition rebinding_slots : ptr -> mptr -> nat -> list registry_call :=
  fun receiver _ _ =>
    if Nat.eqb receiver 2 then [Disconnect 1 2 5 6; Connect 1 9 5 6] else [].

(** The slot of receiver [2] binds receiver [9] as well. *)
Definition binding_slots : ptr -> mptr -> nat -> list registry_call :=
  fun receiver _ _ =>
    if Nat.eqb receiver 2 then [Connect 1 9 5 6] else [].

(** Sender [1] and signal [5], bound to slot [6] of receiver [2] twice and of
    receiver [3] once. *)
Definition twice_bound : channel :=
  connect doubling 1 3 5 6
    (connect doubling 1 2 5 6 (connect doubling 1 2 5 6 empty_channel)).

(** Sender [1] and signal [5], bound to slot [6] of the receivers [2], [3]
    and [4]. *)
Definition three_receivers : channel :=
  connect doubling 1 4 5 6
    (connect doubling 1 3 5 6 (connect doubling 1 2 5 6 empty_channel)).

(** The channels [(int)] and [(int, int)]. *)
Inductive pack := pack_int | pack_int_int.

Global Instance pack_eq_dec : EqDecision pack.
Proof. solve_decision. Defined.

Definition pack_args (sig : pack) : Type :=
  match sig with
  | pack_int => nat
  | pack_int_int => (nat * nat)%type
  end.

Definition plain_pack_slots (sig : pack)
    : ptr -> mptr -> pack_args sig -> list registry_call :=
  fun _ _ _ => [].

(** Both channels empty. *)
Definition empty_registry : registry pack := fun _ => empty_channel.

(** ** Further notions for the statements below *)

(** Every connection that has been allocated and not deleted is an element
    of the vector. *)
Definition tracked (w : channel) : Prop :=
  forall p, is_Some (deref (objects w) p) -> p ∈ elements (_connections w).

(** No two neighbours in [l] both pass [test]. *)
Fixpoint separated (test : Connection -> bool) (l : list Connection) : bool :=
  match l with
  | [] => true
  | c :: l' =>
      match l' with
      | [] => true
      | d :: _ => negb (test c && test d)
      end && separated test l'
  end.

(** The slot of receiver [4] removes its own binding when it is called; the
    other slots leave the registry alone. *)
Definition one_shot_slots : ptr -> mptr -> nat -> list registry_call :=
  fun receiver _ _ =>
    if Nat.eqb receiver 4 then [Disconnect 1 4 5 6] else [].

(** Closed decidable facts are settled by evaluation. *)
Ltac by_evaluation := apply (bool_decide_unpack _); vm_compute; exact I.

(** ** Heap lemmas *)

Lemma deref_S h i :
  deref h (S i) = match h !! i with Some (Some c) => Some c | _ => None end.
Proof. reflexivity. Qed.

Lemma deref_bound h p c : deref h p = Some c -> 0 < p <= length h.
Proof.
  destruct p as [|i]; [discriminate|]. rewrite deref_S.
  destruct (h !! i) as [o|] eqn:E; [|discriminate].
  intros _. apply lookup_lt_Some in E. lia.
Qed.

Lemma deref_app h h' p c : deref h p = Some c -> deref (h ++ h') p = Some c.
Proof.
  destruct p as [|i]; [discriminate|]. rewrite !deref_S.
  destruct (h !! i) as [o|] eqn:E; [|discriminate].
  now rewrite (lookup_app_l_Some _ _ _ _ E).
Qed.

Lemma deref_new h c : deref (h ++ [Some c]) (S (length h)) = Some c.
Proof.
  rewrite deref_S.
  rewrite lookup_app_r by lia. now rewrite Nat.sub_diag.
Qed.

Lemma deref_delete_ne h p q :
  p <> q -> deref (delete_Connection h q) p = deref h p.
Proof.
  intros Hne. destruct p as [|i]; [reflexivity|].
  destruct q as [|j]; [reflexivity|]. unfold delete_Connection.
  rewrite !deref_S, list_lookup_insert_ne by congruence. reflexivity.
Qed.

Lemma deref_delete_eq h p : deref (delete_Connection h p) p = None.
Proof.
  destruct p as [|i]; [reflexivity|]. unfold delete_Connection. rewrite deref_S.
  destruct (decide (i < length h)) as [Hlt|Hge].
  - now rewrite list_lookup_insert_eq.
  - rewrite list_insert_ge by lia. now rewrite lookup_ge_None_2 by lia.
Qed.

Lemma omap_deref_app h h' (l : list addr) :
  Forall (fun p => is_Some (deref h p)) l ->
  omap (deref (h ++ h')) l = omap (deref h) l.
Proof.
  induction 1 as [|p l [c Hc] _ IH]; [reflexivity|].
  csimpl. rewrite (deref_app _ h' _ _ Hc), Hc. now rewrite IH.
Qed.

(** ** Vector lemmas *)

Section VectorFacts.
Variable growth : nat -> nat.

Lemma elements_push_back p v :
  vec_size v <= length (vec_data v) ->
  elements (push_back growth p v) = elements v ++ [p].
Proof.
  intros Hs. unfold elements, push_back.
  assert (Hlen : length (take (vec_size v) (vec_data v) ++ [p]) = S (vec_size v))
    by (rewrite length_app, length_take; simpl; lia).
  destruct (decide (vec_size v < vec_capacity v)); simpl.
  - rewrite cons_middle, app_assoc. now apply take_app_length'.
  - apply take_ge. lia.
Qed.

Lemma push_back_size p v : vec_size (push_back growth p v) = S (vec_size v).
Proof. unfold push_back. now destruct (decide _). Qed.

Lemma push_back_length p v :
  vec_size v <= length (vec_data v) ->
  length (vec_data v) <= vec_capacity v ->
  vec_size (push_back growth p v) <= length (vec_data (push_back growth p v))
  /\ length (vec_data (push_back growth p v)) <= vec_capacity (push_back growth p v).
Proof.
  intros Hs Hc. unfold push_back.
  destruct (decide (vec_size v < vec_capacity v)); simpl;
    rewrite length_app, length_take; simpl; rewrite ?length_drop; lia.
Qed.

End VectorFacts.

(** ** connect *)

Section ConnectFacts.
Variable growth : nat -> nat.

Lemma connect_objects sender receiver signal slot w :
  objects (connect growth sender receiver signal slot w)
  = objects w ++ [Some (tuple sender receiver signal slot)].
Proof. reflexivity. Qed.

Lemma connect_elements sender receiver signal slot w :
  wf w ->
  elements (_connections (connect growth sender receiver signal slot w))
  = elements (_connections w) ++ [S (length (objects w))].
Proof. intros Hw. unfold connect. simpl. apply elements_push_back, Hw. Qed.

Lemma elements_alive_bound w p :
  wf w -> p ∈ elements (_connections w) -> 0 < p <= length (objects w).
Proof.
  intros Hw Hp.
  destruct (proj1 (Forall_forall _ _) (wf_alive w Hw) p Hp) as [c Hc].
  eapply deref_bound, Hc.
Qed.

Lemma records_connect sender receiver signal slot w :
  wf w ->
  records (connect growth sender receiver signal slot w)
  = records w ++ [tuple sender receiver signal slot].
Proof.
  intros Hw. unfold records.
  rewrite connect_elements, connect_objects by assumption.
  rewrite omap_app. f_equal.
  - apply omap_deref_app, Hw.
  - csimpl. now rewrite <- deref_S, deref_new.
Qed.

Lemma wf_connect sender receiver signal slot w :
  wf w -> wf (connect growth sender receiver signal slot w).
Proof.
  intros Hw.
  destruct (push_back_length growth (S (length (objects w))) (_connections w)
              (wf_size w Hw) (wf_capacity w Hw)) as [Hs Hc].
  split.
  - exact Hs.
  - exact Hc.
  - rewrite connect_elements, connect_objects by assumption.
    apply Forall_app. split.
    + eapply Forall_impl; [apply Hw|]. intros p [c Hp].
      exists c. now apply deref_app.
    + apply Forall_singleton. eexists. apply deref_new.
  - rewrite connect_elements by assumption.
    apply NoDup_app. split; [apply Hw|]. split; [|apply NoDup_singleton].
    intros p Hp Hin. apply list_elem_of_singleton in Hin. subst p.
    apply (elements_alive_bound w _ Hw) in Hp. lia.
Qed.

Lemma wf_empty_channel : wf empty_channel.
Proof. split; simpl; [lia | lia | constructor | constructor]. Qed.

End ConnectFacts.

(** ** Emission *)

Section Emission.
Variable Args : Type.
Variable growth : nat -> nat.
Variable slot_body : ptr -> mptr -> Args -> list registry_call.
Implicit Types (args : Args) (w : channel) (c : Connection).

Lemma grows_refl w : grows w w.
Proof. split; auto. Qed.

Lemma grows_trans w1 w2 w3 : grows w1 w2 -> grows w2 w3 -> grows w1 w3.
Proof.
  intros [B1 C1 S1 D1 O1] [B2 C2 S2 D2 O2]. split.
  - congruence.
  - congruence.
  - lia.
  - intros i Hi. rewrite D2 by lia. now apply D1.
  - auto.
Qed.

Lemma connect_grows sender receiver signal slot w :
  wf w ->
  vec_size (_connections w) < vec_capacity (_connections w) ->
  grows w (connect growth sender receiver signal slot w).
Proof.
  intros Hw Hroom. pose proof (wf_size w Hw) as Hsize.
  unfold connect, new_Connection, push_back.
  destruct (decide (vec_size (_connections w) < vec_capacity (_connections w)));
    [|contradiction].
  split; simpl.
  - reflexivity.
  - reflexivity.
  - lia.
  - intros i Hi. rewrite lookup_app_l by (rewrite length_take; lia).
    now apply lookup_take_lt.
  - intros p c. apply deref_app.
Qed.

Lemma run_calls_app os1 os2 w :
  run_calls growth (os1 ++ os2) w
  = match run_calls growth os1 w with
    | Some w' => run_calls growth os2 w'
    | None => None
    end.
Proof.
  revert w. induction os1 as [|o os1 IH]; intros w; [reflexivity|].
  simpl. destruct (run_call growth o w); [apply IH | reflexivity].
Qed.

(** A slot that only connects, while the block has room, extends the channel
    at its end. *)
Lemma run_calls_connects os w :
  wf w ->
  Forall (fun o => is_Connect o = true) os ->
  vec_size (_connections w) + length os <= vec_capacity (_connections w) ->
  exists w',
    run_calls growth os w = Some w' /\ wf w' /\ grows w w'
    /\ vec_size (_connections w') = vec_size (_connections w) + length os
    /\ records w' = records w ++ flat_map connected os.
Proof.
  intros Hw Hos. revert w Hw.
  induction Hos as [|o os Ho _ IH]; intros w Hw Hroom.
  - exists w. simpl. rewrite app_nil_r.
    split; [reflexivity|]. split; [exact Hw|]. split; [apply grows_refl|].
    split; [lia | reflexivity].
  - destruct o as [s r g h|]; [|discriminate]. simpl in Hroom |- *.
    assert (Hg1 : grows w (connect growth s r g h w))
      by (apply connect_grows; [exact Hw | lia]).
    assert (Hs1 : vec_size (_connections (connect growth s r g h w))
                  = S (vec_size (_connections w)))
      by apply push_back_size.
    destruct (IH (connect growth s r g h w)) as (w' & Hrun & Hwf & Hg & Hsz & Hrec).
    + now apply wf_connect.
    + rewrite Hs1, (grows_capacity _ _ Hg1). lia.
    + exists w'. split; [exact Hrun|]. split; [exact Hwf|]. split.
      * eapply grows_trans; [exact Hg1 | exact Hg].
      * split.
        -- rewrite Hsz, Hs1. lia.
        -- rewrite Hrec, records_connect by assumption.
           now rewrite <- app_assoc.
Qed.

Lemma dispatch_cons sender signal args c cs :
  dispatch sender signal args (c :: cs)
  = (if fired sender signal c then handler_calls args c else [])
    ++ dispatch sender signal args cs.
Proof. unfold dispatch. simpl. now destruct (fired sender signal c). Qed.

Lemma reentered_cons sender signal args c cs :
  reentered slot_body sender signal args (c :: cs)
  = (if fired sender signal c then handler_body slot_body args c else [])
    ++ reentered slot_body sender signal args cs.
Proof. unfold reentered. simpl. now destruct (fired sender signal c). Qed.

Lemma dispatch_app sender signal args l1 l2 :
  dispatch sender signal args (l1 ++ l2)
  = dispatch sender signal args l1 ++ dispatch sender signal args l2.
Proof. unfold dispatch. now rewrite List.filter_app, flat_map_app. Qed.

(** One iteration of the loop of [fireAllSlots] on a live record whose slot,
    if it is called, only connects and finds room. *)
Lemma fire_step_connects sender signal args pos p c w :
  wf w ->
  vec_data (_connections w) !! pos = Some p ->
  deref (objects w) p = Some c ->
  let body := if fired sender signal c then handler_body slot_body args c else [] in
  Forall (fun o => is_Connect o = true) body ->
  vec_size (_connections w) + length body <= vec_capacity (_connections w) ->
  exists w',
    fire_step growth slot_body sender signal args
      (vec_block (_connections w)) pos w
    = Some (w', if fired sender signal c then handler_calls args c else [])
    /\ run_calls growth body w = Some w' /\ wf w' /\ grows w w'
    /\ vec_size (_connections w') = vec_size (_connections w) + length body.
Proof.
  intros Hw Hpos Hc body Hbody Hroom.
  destruct (run_calls_connects body w Hw Hbody Hroom)
    as (w' & Hrun & Hwf & Hg & Hsz & _).
  exists w'. split; [|auto].
  unfold fire_step. rewrite decide_True by reflexivity. rewrite Hpos.
  assert (Hp : nonnull p = true).
  { apply deref_bound in Hc. destruct p; [lia | reflexivity]. }
  subst body. unfold fired, handler_body, handler_calls, fireSlot in *.
  rewrite Hp, Hc, andb_true_r.
  destruct (nonnull sender); simpl in *;
    [destruct (isSender c sender && isSignal c signal); simpl in *;
     [destruct (nonnull (_receiver c) && nonnull (_slot c)); simpl in *|]|];
    try (injection Hrun as <-; reflexivity).
  now rewrite Hrun.
Qed.

(** The loop of [fireAllSlots] from position [pos] on, over the pointers
    [rest] to the records [cs], when the slots it calls only connect and the
    block has room for what they add. *)
Lemma fire_loop_connects sender signal args rest :
  forall cs pos w,
  wf w ->
  pos + length rest <= vec_size (_connections w) ->
  (forall i p, rest !! i = Some p ->
     vec_data (_connections w) !! (pos + i) = Some p) ->
  Forall2 (fun p c => deref (objects w) p = Some c) rest cs ->
  Forall (fun o => is_Connect o = true) (reentered slot_body sender signal args cs) ->
  vec_size (_connections w) + length (reentered slot_body sender signal args cs)
    <= vec_capacity (_connections w) ->
  exists w',
    fire_loop growth slot_body sender signal args
      (length rest) (vec_block (_connections w)) pos w
    = Some (w', dispatch sender signal args cs)
    /\ run_calls growth (reentered slot_body sender signal args cs) w = Some w'.
Proof.
  induction rest as [|p rest IH]; intros cs pos w Hw Hlen Hdata Hcs Hconn Hroom.
  - apply Forall2_nil_inv_l in Hcs. subst cs. exists w. now split.
  - apply Forall2_cons_inv_l in Hcs. destruct Hcs as (c & cs' & Hc & Hcs & ->).
    rewrite reentered_cons in Hconn, Hroom.
    apply Forall_app in Hconn. destruct Hconn as [Hbody Hconn].
    rewrite length_app in Hroom. simpl in Hlen.
    destruct (fire_step_connects sender signal args pos p c w Hw)
      as (w1 & Hstep & Hrun1 & Hw1 & Hg & Hsz); auto.
    { specialize (Hdata 0 p eq_refl). now rewrite Nat.add_0_r in Hdata. }
    { lia. }
    destruct (IH cs' (S pos) w1) as (w' & Hloop & Hrun); auto.
    + pose proof (grows_size _ _ Hg). lia.
    + intros i q Hq. rewrite (grows_data _ _ Hg) by (apply lookup_lt_Some in Hq; lia).
      replace (S pos + i) with (pos + S i) by lia. now apply Hdata.
    + eapply Forall2_impl; [exact Hcs|]. intros q d. apply (grows_objects _ _ Hg).
    + rewrite Hsz, (grows_capacity _ _ Hg). lia.
    + exists w'. split.
      * simpl. rewrite Hstep. rewrite (grows_block _ _ Hg) in Hloop.
        rewrite Hloop. now rewrite dispatch_cons.
      * rewrite reentered_cons, run_calls_app, Hrun1. exact Hrun.
Qed.

Lemma elements_records w :
  wf w ->
  Forall2 (fun p c => deref (objects w) p = Some c)
    (elements (_connections w)) (records w).
Proof.
  intros Hw. unfold records.
  induction (wf_alive w Hw) as [|p l [c Hc] _ IH]; csimpl; [constructor|].
  rewrite Hc. now constructor.
Qed.

(** [fireAllSlots] when the slots it calls only connect, and the block has
    room: the slots of the records present at entry are called, in the order
    of the vector, and the channel ends as if the slots' registry calls had
    been made after the emission. *)
Lemma fireAllSlots_connects sender signal args w :
  wf w ->
  Forall (fun o => is_Connect o = true) (reentered slot_body sender signal args (records w)) ->
  vec_size (_connections w) + length (reentered slot_body sender signal args (records w))
    <= vec_capacity (_connections w) ->
  exists w',
    fireAllSlots growth slot_body sender signal args w
    = Some (w', dispatch sender signal args (records w))
    /\ run_calls growth (reentered slot_body sender signal args (records w)) w = Some w'.
Proof.
  intros Hw Hconn Hroom. unfold fireAllSlots.
  pose proof (wf_size w Hw) as Hsize.
  assert (Hlen : length (elements (_connections w)) = vec_size (_connections w))
    by (unfold elements; rewrite length_take; lia).
  pose proof (fire_loop_connects sender signal args
                (elements (_connections w)) (records w) 0 w Hw) as Hloop.
  rewrite Hlen in Hloop. apply Hloop; auto using elements_records.
  intros i p Hp. simpl. unfold elements in Hp.
  apply lookup_take_Some in Hp. tauto.
Qed.

Lemma quiet_reentered sender signal args w :
  quiet slot_body sender signal args w -> reentered slot_body sender signal args (records w) = [].
Proof.
  unfold quiet. induction (records w) as [|c l IH]; intros Hq; [reflexivity|].
  rewrite reentered_cons, IH.
  - destruct (fired sender signal c) eqn:Hf; [|reflexivity].
    rewrite app_nil_r. apply Hq; [apply list_elem_of_here | exact Hf].
  - intros d Hd. apply Hq. now apply list_elem_of_further.
Qed.

(** [fireAllSlots] when no slot it calls touches the registry. *)
Lemma fireAllSlots_quiet sender signal args w :
  wf w ->
  quiet slot_body sender signal args w ->
  fireAllSlots growth slot_body sender signal args w
  = Some (w, dispatch sender signal args (records w)).
Proof.
  intros Hw Hq. pose proof (quiet_reentered _ _ _ _ Hq) as Hr.
  destruct (fireAllSlots_connects sender signal args w Hw) as (w' & Hfire & Hrun).
  - rewrite Hr. constructor.
  - rewrite Hr. simpl. pose proof (wf_size w Hw). pose proof (wf_capacity w Hw). lia.
  - rewrite Hr in Hrun. simpl in Hrun. injection Hrun as <-. exact Hfire.
Qed.

End Emission.

(** ** disconnect *)

Lemma exact_match_tuple sender receiver signal slot c :
  exact_match sender receiver signal slot c = true <->
  c = tuple sender receiver signal slot.
Proof.
  unfold exact_match, isSender, isReceiver, isSignal, isSlot, tuple.
  rewrite !andb_true_iff, !Nat.eqb_eq. destruct c as [s r g h]; simpl. split.
  - intros [[[-> ->] ->] ->]. reflexivity.
  - intros [= -> -> -> ->]. auto.
Qed.

(** The loop of [disconnect] over pointers to records none of which passes
    the test. *)
Lemma disconnect_loop_no_match sender receiver signal slot rest :
  forall pos w,
  (forall i p, rest !! i = Some p ->
     vec_data (_connections w) !! (pos + i) = Some p) ->
  Forall (fun p => exists c, deref (objects w) p = Some c
                   /\ exact_match sender receiver signal slot c = false) rest ->
  disconnect_loop sender receiver signal slot (length rest) pos w = Some w.
Proof.
  induction rest as [|p rest IH]; intros pos w Hdata Hrest; [reflexivity|].
  apply Forall_cons in Hrest. destruct Hrest as [(c & Hc & Hm) Hrest].
  simpl. unfold disconnect_step.
  specialize (Hdata 0 p eq_refl) as Hp. rewrite Nat.add_0_r in Hp.
  rewrite Hp, Hc, Hm. apply IH; [|exact Hrest].
  intros i q Hq. replace (S pos + i) with (pos + S i) by lia. now apply Hdata.
Qed.

(** *** The reachable states stay well formed *)

Lemma erase_elements i v v' :
  vec_size v <= length (vec_data v) ->
  erase i v = Some v' ->
  i < vec_size v
  /\ elements v' = take i (elements v) ++ drop (S i) (elements v)
  /\ vec_size v' = vec_size v - 1
  /\ length (vec_data v') = length (vec_data v)
  /\ vec_capacity v' = vec_capacity v.
Proof.
  intros Hs. unfold erase.
  destruct (decide (i < vec_size v)) as [Hi|]; [|discriminate].
  intros [= <-]. unfold elements. simpl.
  split; [exact Hi|]. split; [|split; [reflexivity|split; [|reflexivity]]].
  - rewrite take_take. replace (i `min` vec_size v) with i by lia.
    rewrite app_assoc. apply take_app_length'.
    rewrite length_app, length_take, length_drop, length_take. lia.
  - rewrite !length_app, length_take, !length_drop, length_take. lia.
Qed.

Lemma wf_disconnect_step sender receiver signal slot iterator w w' :
  wf w ->
  disconnect_step sender receiver signal slot iterator w = Some w' ->
  wf w'.
Proof.
  intros Hw. unfold disconnect_step.
  destruct (vec_data (_connections w) !! iterator) as [p|] eqn:Hp; [|discriminate].
  destruct (deref (objects w) p) as [c|] eqn:Hc; [|discriminate].
  destruct (exact_match sender receiver signal slot c); [|now intros [= <-]].
  destruct (erase iterator (_connections w)) as [v|] eqn:He; [|discriminate].
  intros [= <-].
  destruct (erase_elements _ _ _ (wf_size w Hw) He) as (Hi & Hel & Hsz & Hlen & Hcap).
  assert (Hpi : elements (_connections w) !! iterator = Some p)
    by (unfold elements; rewrite lookup_take_lt; assumption).
  pose proof (take_drop_middle _ _ _ Hpi) as Hmid.
  pose proof (wf_distinct w Hw) as Hnd. rewrite <- Hmid in Hnd.
  apply NoDup_app in Hnd. destruct Hnd as (Hnd1 & Hd & Hnd2).
  apply NoDup_cons in Hnd2. destruct Hnd2 as [Hp2 Hnd2].
  split; simpl.
  - rewrite Hsz, Hlen. pose proof (wf_size w Hw). lia.
  - rewrite Hlen, Hcap. apply Hw.
  - rewrite Hel. apply Forall_forall. intros q Hq.
    assert (Hne : q <> p).
    { intros ->. apply elem_of_app in Hq. destruct Hq as [Hq|Hq].
      - apply (Hd p Hq). left.
      - contradiction. }
    rewrite deref_delete_ne by assumption.
    apply (proj1 (Forall_forall _ _) (wf_alive w Hw)). rewrite <- Hmid.
    apply elem_of_app in Hq. apply elem_of_app.
    destruct Hq as [Hq|Hq]; [now left | right; now right].
  - rewrite Hel. apply NoDup_app. split; [exact Hnd1|]. split; [|exact Hnd2].
    intros x Hx Hx'. apply (Hd x Hx). now right.
Qed.

Lemma wf_disconnect_loop sender receiver signal slot remaining :
  forall iterator w w',
  wf w ->
  disconnect_loop sender receiver signal slot remaining iterator w = Some w' ->
  wf w'.
Proof.
  induction remaining as [|n IH]; intros iterator w w' Hw; simpl.
  - now intros [= <-].
  - destruct (disconnect_step sender receiver signal slot iterator w)
      as [w1|] eqn:Hstep; [|discriminate].
    apply IH. eapply wf_disconnect_step; eassumption.
Qed.

(** A [disconnect] that returns leaves a well-formed channel. *)
Lemma wf_disconnect sender receiver signal slot w w' :
  wf w -> disconnect sender receiver signal slot w = Some w' -> wf w'.
Proof. intros Hw. apply wf_disconnect_loop, Hw. Qed.

Lemma wf_run_calls growth os :
  forall w w', wf w -> run_calls growth os w = Some w' -> wf w'.
Proof.
  induction os as [|o os IH]; intros w w' Hw; simpl.
  - now intros [= <-].
  - destruct (run_call growth o w) as [w1|] eqn:Ho; [|discriminate].
    apply IH. destruct o; simpl in Ho.
    + injection Ho as <-. now apply wf_connect.
    + eapply wf_disconnect; eassumption.
Qed.

Lemma wf_fire_loop {Args} growth slot_body sender signal (args : Args) remaining :
  forall blk pos w w' calls,
  wf w ->
  fire_loop growth slot_body sender signal args remaining blk pos w
  = Some (w', calls) ->
  wf w'.
Proof.
  induction remaining as [|n IH]; intros blk pos w w' calls Hw; simpl.
  - now intros [= <- _].
  - destruct (fire_step growth slot_body sender signal args blk pos w)
      as [[w1 cs1]|] eqn:Hstep; [|discriminate].
    destruct (fire_loop growth slot_body sender signal args n blk (S pos) w1)
      as [[w2 cs2]|] eqn:Hloop; [|discriminate].
    intros [= <- _]. apply IH in Hloop; [exact Hloop|].
    clear Hloop IH. unfold fire_step in Hstep.
    destruct (decide (blk = vec_block (_connections w))); [|discriminate].
    destruct (vec_data (_connections w) !! pos) as [p|]; [|discriminate].
    destruct (nonnull sender && nonnull p); [|now injection Hstep as <- _].
    destruct (deref (objects w) p) as [c|]; [|discriminate].
    destruct (isSender c sender && isSignal c signal);
      [|now injection Hstep as <- _].
    unfold fireSlot in Hstep.
    destruct (nonnull (_receiver c) && nonnull (_slot c));
      [|now injection Hstep as <- _].
    destruct (run_calls growth (slot_body (_receiver c) (_slot c) args) w)
      as [w3|] eqn:Hrun; [|discriminate].
    injection Hstep as <- _. eapply wf_run_calls; eassumption.
Qed.

(** An emission that returns leaves a well-formed channel. *)
Lemma wf_fireAllSlots {Args} growth slot_body sender signal (args : Args) w w' calls :
  wf w ->
  fireAllSlots growth slot_body sender signal args w = Some (w', calls) ->
  wf w'.
Proof. intros Hw. now apply wf_fire_loop. Qed.

(** *** What disconnect does *)

Lemma Forall2_deref_records w cs :
  Forall2 (fun p c => deref (objects w) p = Some c) (elements (_connections w)) cs ->
  records w = cs.
Proof.
  unfold records. induction 1 as [|p c l cs Hc _ IH]; [reflexivity|].
  csimpl. rewrite Hc, IH. reflexivity.
Qed.

Lemma Forall2_deref_delete h q (l : list addr) cs :
  q ∉ l ->
  Forall2 (fun p c => deref h p = Some c) l cs ->
  Forall2 (fun p c => deref (delete_Connection h q) p = Some c) l cs.
Proof.
  intros Hq. induction 1 as [|p c l cs Hc _ IH]; [constructor|].
  apply not_elem_of_cons in Hq. destruct Hq as [Hne Hq].
  constructor; [|now apply IH].
  rewrite deref_delete_ne by congruence. exact Hc.
Qed.

(** The walk behind the end: the slots there hold the pointer [q] that was
    the last element, to a record that does not pass the test. *)
Lemma disconnect_loop_behind_end sender receiver signal slot q cq junk done cdone k w :
  wf w ->
  vec_data (_connections w) = done ++ replicate k q ++ junk ->
  vec_size (_connections w) = length done ->
  Forall2 (fun p c => deref (objects w) p = Some c) done cdone ->
  deref (objects w) q = Some cq ->
  exact_match sender receiver signal slot cq = false ->
  disconnect_loop sender receiver signal slot k (length done) w = Some w
  /\ records w = cdone.
Proof.
  intros Hw Hdata Hsize Hdone Hq Hcq. split.
  - pose proof (disconnect_loop_no_match sender receiver signal slot
                  (replicate k q) (length done) w) as Hloop.
    rewrite length_replicate in Hloop. apply Hloop.
    + intros i p Hp. rewrite Hdata, lookup_app_r by lia.
      replace (length done + i - length done) with i by lia.
      now apply lookup_app_l_Some.
    + apply Forall_replicate. eauto.
  - apply Forall2_deref_records. unfold elements.
    now rewrite Hdata, Hsize, take_app_length.
Qed.

Lemma disconnect_loop_sweep sender receiver signal slot q cq junk n :
  forall rem crem done cdone k w,
  length rem <= n ->
  wf w ->
  vec_data (_connections w) = done ++ rem ++ replicate k q ++ junk ->
  vec_size (_connections w) = length done + length rem ->
  Forall2 (fun p c => deref (objects w) p = Some c) done cdone ->
  Forall2 (fun p c => deref (objects w) p = Some c) rem crem ->
  deref (objects w) q = Some cq ->
  exact_match sender receiver signal slot cq = false ->
  (rem <> [] -> last rem = Some q) ->
  exists w',
    disconnect_loop sender receiver signal slot (length rem + k) (length done) w
    = Some w'
    /\ wf w'
    /\ records w' = cdone ++ sweep (exact_match sender receiver signal slot) crem.
Proof.
  assert (Hend : forall rem crem done cdone k w,
    rem = [] ->
    wf w ->
    vec_data (_connections w) = done ++ rem ++ replicate k q ++ junk ->
    vec_size (_connections w) = length done + length rem ->
    Forall2 (fun p c => deref (objects w) p = Some c) done cdone ->
    Forall2 (fun p c => deref (objects w) p = Some c) rem crem ->
    deref (objects w) q = Some cq ->
    exact_match sender receiver signal slot cq = false ->
    exists w',
      disconnect_loop sender receiver signal slot (length rem + k) (length done) w
      = Some w'
      /\ wf w'
      /\ records w' = cdone ++ sweep (exact_match sender receiver signal slot) crem).
  { intros rem crem done cdone k w -> Hw Hdata Hsize Hdone Hrem Hq Hcq.
    apply Forall2_nil_inv_l in Hrem. subst crem. simpl in *.
    rewrite Nat.add_0_r in Hsize. rewrite app_nil_r.
    destruct (disconnect_loop_behind_end sender receiver signal slot q cq junk
                done cdone k w) as [Hloop Hrec]; auto.
    exists w. auto. }
  induction n as [|n IH];
    intros rem crem done cdone k w Hn Hw Hdata Hsize Hdone Hrem Hq Hcq Hlast.
  { destruct rem; [|simpl in Hn; lia]. now apply Hend. }
  destruct rem as [|p rem']; [now apply Hend|]. clear Hend.
  apply Forall2_cons_inv_l in Hrem. destruct Hrem as (c & crem' & Hc & Hrem' & ->).
  assert (Hp : vec_data (_connections w) !! length done = Some p)
    by (rewrite Hdata; now apply list_lookup_middle).
  assert (Hel : elements (_connections w) = done ++ p :: rem').
  { unfold elements. rewrite Hdata, Hsize, app_assoc.
    apply take_app_length'. now rewrite length_app. }
  pose proof (wf_distinct w Hw) as Hnd. rewrite Hel in Hnd.
  apply NoDup_app in Hnd. destruct Hnd as (_ & Hpd & Hnd).
  apply NoDup_cons in Hnd. destruct Hnd as [Hpr _].
  assert (Hpdone : p ∉ done) by (intros Hin; apply (Hpd p Hin); left).
  destruct (exact_match sender receiver signal slot c) eqn:Hm.
  - (* the record goes; the one behind it is stepped over *)
    destruct rem' as [|d rem''].
    { specialize (Hlast ltac:(discriminate)). simpl in Hlast.
      injection Hlast as ->. congruence. }
    apply Forall2_cons_inv_l in Hrem'.
    destruct Hrem' as (cd & crem'' & Hcd & Hrem'' & ->).
    specialize (Hlast ltac:(discriminate)). rewrite last_cons_cons in Hlast.
    assert (Hqp : q <> p).
    { intros ->. apply Hpr. apply last_Some in Hlast. destruct Hlast as [l' ->].
      apply elem_of_app. right. left. }
    apply not_elem_of_cons in Hpr. destruct Hpr as [Hpd' Hpr].
    pose proof Hlast as Hmid. apply last_Some in Hmid. destruct Hmid as [mid Hmid].
    set (v1 := {| vec_data := done ++ (d :: rem'') ++ replicate (S k) q ++ junk;
                  vec_size := vec_size (_connections w) - 1;
                  vec_capacity := vec_capacity (_connections w);
                  vec_block := vec_block (_connections w) |}).
    set (w1 := {| objects := delete_Connection (objects w) p; _connections := v1 |}).
    assert (Hstep : disconnect_step sender receiver signal slot (length done) w
                    = Some w1).
    { unfold disconnect_step. rewrite Hp, Hc, Hm. unfold erase.
      rewrite decide_True by (rewrite Hsize; simpl; lia).
      unfold w1, v1. do 3 f_equal.
      fold (elements (_connections w)). rewrite Hel.
      rewrite Hdata at 1. rewrite take_app_length. f_equal.
      rewrite cons_middle, app_assoc, drop_app_length'
        by (rewrite length_app; simpl; lia).
      f_equal.
      rewrite Hdata, Hsize, Hmid.
      rewrite (app_comm_cons mid [q] p), <- !app_assoc, app_assoc.
      rewrite drop_app_length'; [reflexivity|].
      rewrite !length_app. simpl. lia. }
    assert (Hw1 : wf w1) by (eapply wf_disconnect_step; eassumption).
    destruct (IH rem'' crem'' (done ++ [d]) (cdone ++ [cd]) (S k) w1)
      as (w' & Hloop & Hw' & Hrec).
    + simpl in Hn. lia.
    + exact Hw1.
    + simpl. now rewrite <- app_assoc.
    + simpl. rewrite Hsize, length_app. simpl. lia.
    + apply Forall2_app.
      * now apply Forall2_deref_delete.
      * constructor; [|constructor]. simpl.
        rewrite deref_delete_ne by congruence. exact Hcd.
    + apply Forall2_deref_delete; assumption.
    + simpl. rewrite deref_delete_ne by congruence. exact Hq.
    + exact Hcq.
    + intros Hne. destruct rem''; [contradiction|]. exact Hlast.
    + exists w'. split; [|split; [exact Hw'|]].
      * replace (length (p :: d :: rem'') + k) with (S (length rem'' + S k))
          by (simpl; lia).
        simpl. rewrite Hstep.
        replace (S (length done)) with (length (done ++ [d]))
          by (rewrite length_app; simpl; lia).
        exact Hloop.
      * rewrite Hrec. simpl. rewrite Hm. now rewrite <- app_assoc.
  - (* the record stays *)
    assert (Hstep : disconnect_step sender receiver signal slot (length done) w
                    = Some w)
      by (unfold disconnect_step; now rewrite Hp, Hc, Hm).
    destruct (IH rem' crem' (done ++ [p]) (cdone ++ [c]) k w)
      as (w' & Hloop & Hw' & Hrec).
    + simpl in Hn. lia.
    + exact Hw.
    + rewrite Hdata. now rewrite <- app_assoc.
    + rewrite Hsize, length_app. simpl. lia.
    + apply Forall2_app; [exact Hdone|]. now repeat constructor.
    + exact Hrem'.
    + exact Hq.
    + exact Hcq.
    + intros Hne. specialize (Hlast ltac:(discriminate)).
      destruct rem'; [contradiction|]. now rewrite last_cons_cons in Hlast.
    + exists w'. split; [|split; [exact Hw'|]].
      * simpl. rewrite Hstep.
        replace (S (length done)) with (length (done ++ [p]))
          by (rewrite length_app; simpl; lia).
        exact Hloop.
      * rewrite Hrec. simpl. rewrite Hm. now rewrite <- app_assoc.
Qed.

Lemma disconnect_loop_app sender receiver signal slot a b :
  forall pos w,
  disconnect_loop sender receiver signal slot (a + b) pos w
  = match disconnect_loop sender receiver signal slot a pos w with
    | Some w' => disconnect_loop sender receiver signal slot b (pos + a) w'
    | None => None
    end.
Proof.
  induction a as [|a IH]; intros pos w; simpl.
  - now rewrite Nat.add_0_r.
  - destruct (disconnect_step sender receiver signal slot pos w); [|reflexivity].
    rewrite IH. now replace (S pos + a) with (pos + S a) by lia.
Qed.

Lemma sweep_no_match test l :
  Forall (fun c => test c = false) l -> sweep test l = l.
Proof. induction 1 as [|c l Hc _ IH]; simpl; [reflexivity|]. now rewrite Hc, IH. Qed.

Lemma sweep_app_no_match test l1 l2 :
  Forall (fun c => test c = false) l1 ->
  sweep test (l1 ++ l2) = l1 ++ sweep test l2.
Proof. induction 1 as [|c l Hc _ IH]; simpl; [reflexivity|]. now rewrite Hc, IH. Qed.

(** The walk when only the last record passes the test: it goes, and the
    walk is over. *)
Lemma disconnect_last_only sender receiver signal slot w l c :
  wf w ->
  records w = l ++ [c] ->
  Forall (fun d => exact_match sender receiver signal slot d = false) l ->
  exact_match sender receiver signal slot c = true ->
  exists w',
    disconnect sender receiver signal slot w = Some w' /\ wf w' /\ records w' = l.
Proof.
  intros Hw Hrec Hl Hc.
  pose proof (elements_records w Hw) as Hel. rewrite Hrec in Hel.
  apply Forall2_app_inv_r in Hel. destruct Hel as (mid & lq & Hmid & Hq & Hels).
  apply Forall2_cons_inv_r in Hq. destruct Hq as (q & nil' & Hq & Hnil & ->).
  apply Forall2_nil_inv_r in Hnil. subst nil'.
  pose proof (wf_size w Hw) as Hsize.
  assert (Hlen : vec_size (_connections w) = length mid + 1).
  { assert (H : length (elements (_connections w)) = length (mid ++ [q]))
      by now rewrite Hels.
    unfold elements in H. rewrite length_take, length_app in H. simpl in H. lia. }
  assert (Hdata : forall i p, (mid ++ [q]) !! i = Some p ->
            vec_data (_connections w) !! i = Some p).
  { intros i p Hp. rewrite <- Hels in Hp. unfold elements in Hp.
    apply lookup_take_Some in Hp. tauto. }
  unfold disconnect. rewrite Hlen, disconnect_loop_app.
  rewrite (disconnect_loop_no_match sender receiver signal slot mid 0 w).
  - simpl. unfold disconnect_step.
    rewrite (Hdata (length mid) q) by now apply list_lookup_middle.
    rewrite Hq, Hc.
    destruct (erase (length mid) (_connections w)) as [v|] eqn:He.
    + destruct (erase_elements _ _ _ Hsize He) as (_ & Hel' & _).
      eexists. split; [reflexivity|].
      assert (Hstep : disconnect_step sender receiver signal slot (length mid) w
                = Some {| objects := delete_Connection (objects w) q;
                          _connections := v |}).
      { unfold disconnect_step.
        rewrite (Hdata (length mid) q) by now apply list_lookup_middle.
        now rewrite Hq, Hc, He. }
      split; [eapply wf_disconnect_step; eassumption|].
      apply Forall2_deref_records. simpl. rewrite Hel', Hels.
      rewrite take_app_length, drop_ge by (rewrite length_app; simpl; lia).
      rewrite app_nil_r. apply Forall2_deref_delete; [|exact Hmid].
      pose proof (wf_distinct w Hw) as Hnd. rewrite Hels in Hnd.
      apply NoDup_app in Hnd. destruct Hnd as (_ & Hnd & _).
      intros Hin. apply (Hnd q Hin). left.
    + unfold erase in He. rewrite decide_True in He by lia. discriminate.
  - intros i p Hp. simpl. apply Hdata. now apply lookup_app_l_Some.
  - eapply Forall2_Forall_l; [exact Hmid|].
    eapply Forall_impl; [exact Hl|]. intros d Hd p Hp. eauto.
Qed.

(** What [disconnect] does: when the last record of the channel does not
    pass the test, or is the only one that does, the call returns and the
    channel holds the records that [sweep] leaves. *)
Theorem disconnect_sweeps sender receiver signal slot w :
  wf w ->
  (forall c, last (records w) = Some c ->
     exact_match sender receiver signal slot c = false)
  \/ (forall l c, records w = l ++ [c] ->
        Forall (fun d => exact_match sender receiver signal slot d = false) l) ->
  exists w',
    disconnect sender receiver signal slot w = Some w'
    /\ wf w'
    /\ records w' = sweep (exact_match sender receiver signal slot) (records w).
Proof.
  intros Hw Hcases.
  destruct (last (records w)) as [c|] eqn:Hlast.
  2:{ (* no record at all *)
      apply last_None in Hlast.
      exists w. split; [|split; [exact Hw|now rewrite Hlast]].
      pose proof (elements_records w Hw) as Hel. rewrite Hlast in Hel.
      apply Forall2_nil_inv_r in Hel.
      assert (Hz : vec_size (_connections w) = 0).
      { pose proof (wf_size w Hw).
        assert (H0 : length (elements (_connections w)) = 0) by now rewrite Hel.
        unfold elements in H0. rewrite length_take in H0. lia. }
      unfold disconnect. now rewrite Hz. }
  pose proof Hlast as Hsnoc. apply last_Some in Hsnoc. destruct Hsnoc as [l Hrec].
  destruct (exact_match sender receiver signal slot c) eqn:Hc.
  - (* the last record passes the test *)
    destruct Hcases as [Hno|Honly]; [specialize (Hno c eq_refl); congruence|].
    specialize (Honly l c Hrec).
    destruct (disconnect_last_only sender receiver signal slot w l c)
      as (w' & Hd & Hw' & Hrec'); auto.
    exists w'. split; [exact Hd|]. split; [exact Hw'|].
    rewrite Hrec', Hrec, sweep_app_no_match by assumption.
    simpl. now rewrite Hc, app_nil_r.
  - (* the last record does not *)
    pose proof (elements_records w Hw) as Hel.
    pose proof Hel as Hel'. rewrite Hrec in Hel'.
    apply Forall2_app_inv_r in Hel'. destruct Hel' as (mid & lq & _ & Hq & Hels).
    apply Forall2_cons_inv_r in Hq. destruct Hq as (q & nil' & Hq & Hnil & ->).
    apply Forall2_nil_inv_r in Hnil. subst nil'.
    pose proof (wf_size w Hw) as Hsize.
    assert (Hlen : length (elements (_connections w)) = vec_size (_connections w))
      by (unfold elements; rewrite length_take; lia).
    destruct (disconnect_loop_sweep sender receiver signal slot q c
                (drop (vec_size (_connections w)) (vec_data (_connections w)))
                (length (elements (_connections w)))
                (elements (_connections w)) (records w) [] [] 0 w)
      as (w' & Hloop & Hw' & Hrec'); auto.
    + simpl. unfold elements. now rewrite take_drop.
    + intros _. rewrite Hels. apply last_snoc.
    + exists w'. split; [|split; [exact Hw'|exact Hrec']].
      unfold disconnect. rewrite Hlen, Nat.add_0_r in Hloop. exact Hloop.
Qed.

Lemma exact_match_other sender receiver signal slot (l : list Connection) :
  tuple sender receiver signal slot ∉ l ->
  Forall (fun c => exact_match sender receiver signal slot c = false) l.
Proof.
  intros Hno. apply Forall_forall. intros c Hc.
  destruct (exact_match sender receiver signal slot c) eqn:Hm; [|reflexivity].
  apply exact_match_tuple in Hm. subst c. contradiction.
Qed.

(** A tuple that is in the channel once is taken out by [disconnect], and
    the other records stay as they are. *)
Lemma disconnect_removes_single_binding sender receiver signal slot w l1 l2 :
  wf w ->
  records w = l1 ++ tuple sender receiver signal slot :: l2 ->
  tuple sender receiver signal slot ∉ l1 ->
  tuple sender receiver signal slot ∉ l2 ->
  exists w',
    disconnect sender receiver signal slot w = Some w'
    /\ wf w' /\ records w' = l1 ++ l2.
Proof.
  intros Hw Hrec H1 H2.
  pose proof (exact_match_other _ _ _ _ _ H1) as Hl1.
  pose proof (exact_match_other _ _ _ _ _ H2) as Hl2.
  assert (Ht : exact_match sender receiver signal slot
                 (tuple sender receiver signal slot) = true)
    by now apply exact_match_tuple.
  destruct (disconnect_sweeps sender receiver signal slot w Hw)
    as (w' & Hd & Hw' & Hrec').
  - destruct l2 as [|d l2'].
    + right. intros l c Hlc. rewrite Hrec in Hlc.
      apply app_inj_tail in Hlc. destruct Hlc as [<- _]. exact Hl1.
    + left. intros c Hc. rewrite Hrec, last_app, last_cons_cons in Hc.
      destruct (last (d :: l2')) as [c'|] eqn:Hlast;
        [|apply last_None in Hlast; discriminate].
      injection Hc as ->.
      apply (proj1 (Forall_forall _ _) Hl2). apply last_Some in Hlast.
      destruct Hlast as [l' ->]. apply elem_of_app. right. left.
  - exists w'. split; [exact Hd|]. split; [exact Hw'|].
    rewrite Hrec', Hrec, sweep_app_no_match by assumption. simpl. rewrite Ht.
    destruct l2 as [|d l2']; [reflexivity|].
    apply Forall_cons in Hl2. destruct Hl2 as [_ Hl2].
    now rewrite (sweep_no_match _ _ Hl2).
Qed.

(** C4.  On a channel that holds no record equal to the tuple in all four
    identities, [disconnect] returns with the channel as it was: nothing is
    removed, and there is no error to report. *)
Theorem disconnect_without_match_is_noop sender receiver signal slot w :
  wf w ->
  tuple sender receiver signal slot ∉ records w ->
  disconnect sender receiver signal slot w = Some w.
Proof.
  intros Hw Hno. unfold disconnect.
  pose proof (wf_size w Hw) as Hsize.
  assert (Hlen : length (elements (_connections w)) = vec_size (_connections w))
    by (unfold elements; rewrite length_take; lia).
  rewrite <- Hlen. apply disconnect_loop_no_match.
  - intros i p Hp. simpl. unfold elements in Hp.
    apply lookup_take_Some in Hp. tauto.
  - eapply Forall2_Forall_l; [apply (elements_records w Hw)|].
    apply Forall_forall. intros c Hin p Hc. exists c. split; [exact Hc|].
    destruct (exact_match sender receiver signal slot c) eqn:Hm; [|reflexivity].
    apply exact_match_tuple in Hm. subst c. contradiction.
Qed.

Lemma disconnect_without_match_is_noop_witness :
  disconnect 1 3 5 6 (connect doubling 1 2 5 6 empty_channel)
  = Some (connect doubling 1 2 5 6 empty_channel).
Proof.
  apply disconnect_without_match_is_noop.
  - apply wf_connect, wf_empty_channel.
  - by_evaluation.
Defined.

(** ** Null pointers *)

Lemma nonnull_true p : p <> nullptr -> nonnull p = true.
Proof. unfold nonnull, nullptr. now destruct p. Qed.

Lemma nonnull_false p : p = nullptr -> nonnull p = false.
Proof. now intros ->. Qed.

(** The loop of [fireAllSlots] for a null sender. *)
Lemma fire_loop_null_sender {Args} growth slot_body signal (args : Args) n :
  forall pos w,
  pos + n <= length (vec_data (_connections w)) ->
  fire_loop growth slot_body nullptr signal args n
    (vec_block (_connections w)) pos w = Some (w, []).
Proof.
  induction n as [|n IH]; intros pos w Hlen; [reflexivity|].
  simpl. unfold fire_step. rewrite decide_True by reflexivity.
  destruct (vec_data (_connections w) !! pos) as [p|] eqn:Hp.
  - simpl. rewrite IH by lia. reflexivity.
  - apply lookup_ge_None in Hp. lia.
Qed.

(** C10.  [fireAllSlots] with a null sender calls no slot and leaves the
    channel as it is, whatever records the channel holds: the test stops at
    [sender] before any record is looked at, so a record whose stored sender
    is null is not reached either. *)
Theorem fireAllSlots_null_sender {Args} growth slot_body signal (args : Args) w :
  vec_size (_connections w) <= length (vec_data (_connections w)) ->
  fireAllSlots growth slot_body nullptr signal args w = Some (w, []).
Proof.
  intros Hsize. unfold fireAllSlots. apply fire_loop_null_sender. simpl. lia.
Qed.

Lemma fireAllSlots_null_sender_witness :
  records (connect doubling nullptr 2 5 6 empty_channel) = [tuple nullptr 2 5 6]
  /\ fireAllSlots doubling plain_slots nullptr 5 42
       (connect doubling nullptr 2 5 6 empty_channel)
     = Some (connect doubling nullptr 2 5 6 empty_channel, []).
Proof.
  split; [reflexivity|].
  apply fireAllSlots_null_sender. vm_compute. lia.
Defined.

(** C9.  [Connection::fireSlot] calls the slot, on the stored receiver and
    with the arguments given, only when the stored receiver and the stored
    slot are both non-null; when either is null it does nothing. *)
Theorem fireSlot_guard {Args} growth slot_body c (args : Args) w :
  (_receiver c = nullptr \/ _slot c = nullptr ->
     fireSlot growth slot_body c args w = Some (w, []))
  /\ (_receiver c <> nullptr -> _slot c <> nullptr ->
      fireSlot growth slot_body c args w
      = match run_calls growth (slot_body (_receiver c) (_slot c) args) w with
        | Some w' =>
            Some (w', [{| callee := _receiver c; method := _slot c;
                          arguments := args |}])
        | None => None
        end).
Proof.
  unfold fireSlot. split.
  - intros [H|H]; rewrite (nonnull_false _ H); [reflexivity|].
    now rewrite andb_false_r.
  - intros Hr Hs. now rewrite (nonnull_true _ Hr), (nonnull_true _ Hs).
Qed.

Lemma fireSlot_guard_witness :
  fireSlot doubling plain_slots (tuple 1 nullptr 5 6) 42 empty_channel
  = Some (empty_channel, [])
  /\ fireSlot doubling plain_slots (tuple 1 2 5 nullptr) 42 empty_channel
     = Some (empty_channel, [])
  /\ fireSlot doubling plain_slots (tuple 1 2 5 6) 42 empty_channel
     = Some (empty_channel, [{| callee := 2; method := 6; arguments := 42 |}]).
Proof.
  split; [|split].
  - apply (fireSlot_guard doubling plain_slots (tuple 1 nullptr 5 6) 42 empty_channel).
    left. reflexivity.
  - apply (fireSlot_guard doubling plain_slots (tuple 1 2 5 nullptr) 42 empty_channel).
    right. reflexivity.
  - apply (fireSlot_guard doubling plain_slots (tuple 1 2 5 6) 42 empty_channel);
      simpl; unfold nullptr; lia.
Defined.

(** ** connect, then emit *)

Lemma tuple_eta c : tuple (_sender c) (_receiver c) (_signal c) (_slot c) = c.
Proof. now destruct c. Qed.

Lemma fired_tuple sender receiver signal slot :
  sender <> nullptr ->
  fired sender signal (tuple sender receiver signal slot) = true.
Proof.
  intros Hs. unfold fired, isSender, isSignal. simpl.
  now rewrite (nonnull_true _ Hs), !Nat.eqb_refl.
Qed.

Lemma fired_nonnull_sender sender signal c :
  sender <> nullptr ->
  fired sender signal c = isSender c sender && isSignal c signal.
Proof. intros Hs. unfold fired. now rewrite (nonnull_true _ Hs). Qed.

Lemma calls_to_app {Args} receiver slot (l1 l2 : list (Invocation Args)) :
  calls_to receiver slot (l1 ++ l2)
  = calls_to receiver slot l1 ++ calls_to receiver slot l2.
Proof. apply List.filter_app. Qed.

(** Records other than the tuple do not call the tuple's slot on the tuple's
    receiver when the tuple's sender emits the tuple's signal. *)
Lemma calls_to_dispatch_absent {Args} sender receiver signal slot (args : Args) l :
  tuple sender receiver signal slot ∉ l ->
  calls_to receiver slot (dispatch sender signal args l) = [].
Proof.
  induction l as [|c l IH]; intros Hno; [reflexivity|].
  apply not_elem_of_cons in Hno. destruct Hno as [Hc Hl].
  rewrite dispatch_cons, calls_to_app, (IH Hl), app_nil_r.
  destruct (fired sender signal c) eqn:Hf; [|reflexivity].
  unfold handler_calls.
  destruct (nonnull (_receiver c) && nonnull (_slot c)); [|reflexivity].
  unfold calls_to. simpl.
  destruct (Nat.eqb (_receiver c) receiver && Nat.eqb (_slot c) slot) eqn:E;
    [|reflexivity].
  exfalso. apply Hc. symmetry. apply exact_match_tuple.
  unfold fired, isSender, isSignal in Hf.
  apply andb_true_iff in E. destruct E as [Er Es].
  apply andb_true_iff in Hf. destruct Hf as [_ Hf].
  apply andb_true_iff in Hf. destruct Hf as [Hse Hsi].
  apply Nat.eqb_eq in Er, Es.
  unfold exact_match, isSender, isReceiver, isSignal, isSlot.
  now rewrite Hse, Hsi, Er, Es, !Nat.eqb_refl.
Qed.

(** [N] copies of a valid tuple call its slot [N] times. *)
Lemma calls_to_dispatch_replicate {Args} sender receiver signal slot (args : Args) N :
  sender <> nullptr -> receiver <> nullptr -> slot <> nullptr ->
  dispatch sender signal args (replicate N (tuple sender receiver signal slot))
  = replicate N {| callee := receiver; method := slot; arguments := args |}
  /\ calls_to receiver slot
       (replicate N {| callee := receiver; method := slot; arguments := args |})
     = replicate N {| callee := receiver; method := slot; arguments := args |}.
Proof.
  intros Hs Hr Hh. induction N as [|N [IH1 IH2]]; [now split|]. split.
  - simpl replicate. rewrite dispatch_cons, fired_tuple, IH1 by assumption.
    unfold handler_calls. simpl.
    now rewrite (nonnull_true _ Hr), (nonnull_true _ Hh).
  - simpl replicate. unfold calls_to in *. simpl.
    now rewrite !Nat.eqb_refl, IH2.
Qed.


Lemma plain_slots_quiet sender signal args w :
  quiet plain_slots sender signal args w.
Proof. intros c _ _. unfold handler_body, plain_slots. now destruct (_ && _). Qed.


(** [N] calls of [connect] with one tuple append [N] records, each in a
    connection object of its own. *)
Lemma iter_connect_facts growth sender receiver signal slot N w :
  wf w ->
  wf (Nat.iter N (connect growth sender receiver signal slot) w)
  /\ length (objects (Nat.iter N (connect growth sender receiver signal slot) w))
     = length (objects w) + N
  /\ elements (_connections (Nat.iter N (connect growth sender receiver signal slot) w))
     = elements (_connections w) ++ seq (S (length (objects w))) N
  /\ records (Nat.iter N (connect growth sender receiver signal slot) w)
     = records w ++ replicate N (tuple sender receiver signal slot).
Proof.
  intros Hw. induction N as [|N (IHw & IHl & IHe & IHr)].
  - simpl. rewrite !app_nil_r. auto.
  - rewrite Nat.iter_succ. split; [now apply wf_connect|]. split; [|split].
    + rewrite connect_objects, length_app, IHl. simpl. lia.
    + rewrite connect_elements, IHe, IHl, seq_S by assumption.
      now rewrite <- app_assoc.
    + rewrite records_connect, IHr, replicate_S_end by assumption.
      now rewrite <- app_assoc.
Qed.






(** ** The order of an emission *)

Lemma connect_all_facts growth ts :
  forall w, wf w ->
  wf (connect_all growth ts w)
  /\ records (connect_all growth ts w) = records w ++ ts.
Proof.
  induction ts as [|c ts IH]; intros w Hw.
  - simpl. now rewrite app_nil_r.
  - simpl. destruct (IH (connect growth (_sender c) (_receiver c) (_signal c)
                           (_slot c) w)) as [IHw IHr]; [now apply wf_connect|].
    split; [exact IHw|].
    rewrite IHr, records_connect, tuple_eta by assumption.
    now rewrite <- app_assoc.
Qed.



(** ** Channels *)

Lemma store_other {Signature} `{EqDecision Signature} (sig sig' : Signature) w R :
  sig' <> sig -> store sig w R sig' = R sig'.
Proof. intros Hne. unfold store. now rewrite decide_False. Qed.

(** C5.  The channels are apart: [connect], [disconnect] and [fireAllSlots]
    at one parameter pack leave the channel of every other pack as it is, and
    a record connected in one channel makes no difference to what an emission
    in another channel calls, also when the sender and the signal of the
    emission are those of the record. *)
Theorem channels_are_isolated {Signature} `{EqDecision Signature}
    {Args : Signature -> Type} growth
    (slot_body : forall sig, ptr -> mptr -> Args sig -> list registry_call)
    (sig1 sig2 : Signature) sender receiver signal slot
    (args1 : Args sig1) (args2 : Args sig2) (R : registry Signature) :
  sig1 <> sig2 ->
  connect_in growth sig1 sender receiver signal slot R sig2 = R sig2
  /\ (forall R', disconnect_in sig1 sender receiver signal slot R = Some R' ->
        R' sig2 = R sig2)
  /\ (forall R' calls,
        fireAllSlots_in growth slot_body sig1 sender signal args1 R
        = Some (R', calls) ->
        R' sig2 = R sig2)
  /\ snd <$> fireAllSlots_in growth slot_body sig2 sender signal args2
               (connect_in growth sig1 sender receiver signal slot R)
     = snd <$> fireAllSlots_in growth slot_body sig2 sender signal args2 R.
Proof.
  intros Hne. assert (Hne' : sig2 <> sig1) by congruence.
  split; [|split; [|split]].
  - now apply store_other.
  - intros R'. unfold disconnect_in.
    destruct (disconnect sender receiver signal slot (R sig1)); [|discriminate].
    intros [= <-]. now apply store_other.
  - intros R' calls. unfold fireAllSlots_in.
    destruct (fireAllSlots growth (slot_body sig1) sender signal args1 (R sig1))
      as [[w cs]|]; [|discriminate].
    intros [= <- _]. now apply store_other.
  - unfold fireAllSlots_in, connect_in. rewrite store_other by assumption.
    now destruct (fireAllSlots growth (slot_body sig2) sender signal args2 (R sig2))
      as [[w cs]|].
Qed.

Lemma channels_are_isolated_witness :
  connect_in doubling pack_int 1 2 5 6 empty_registry pack_int_int
  = empty_registry pack_int_int
  /\ (forall R', disconnect_in pack_int 1 2 5 6 empty_registry = Some R' ->
        R' pack_int_int = empty_registry pack_int_int)
  /\ (forall R' calls,
        fireAllSlots_in (Args := pack_args) doubling plain_pack_slots
          pack_int 1 5 42 empty_registry = Some (R', calls) ->
        R' pack_int_int = empty_registry pack_int_int)
  /\ snd <$> fireAllSlots_in (Args := pack_args) doubling plain_pack_slots
               pack_int_int 1 5 (42, 43)
               (connect_in doubling pack_int 1 2 5 6 empty_registry)
     = snd <$> fireAllSlots_in (Args := pack_args) doubling plain_pack_slots
                 pack_int_int 1 5 (42, 43) empty_registry.
Proof.
  apply (channels_are_isolated (Args := pack_args) doubling plain_pack_slots
           pack_int pack_int_int 1 2 5 6 42 (42, 43) empty_registry).
  by_evaluation.
Defined.

(** ** Slots that call the registry during an emission *)

(** C8, as the code has it.  An emission walks the vector itself.  When the
    slots it calls only call [connect], and the block has room for every
    record they add, the emission calls the slots of the records that were in
    the channel at its start, in their order, and the added records are in
    the channel, behind the others, for the emissions that follow. *)
Theorem emission_with_connecting_slots {Args} growth slot_body
    sender signal (args : Args) w :
  wf w ->
  Forall (fun o => is_Connect o = true)
    (reentered slot_body sender signal args (records w)) ->
  vec_size (_connections w)
    + length (reentered slot_body sender signal args (records w))
    <= vec_capacity (_connections w) ->
  exists w',
    fireAllSlots growth slot_body sender signal args w
    = Some (w', dispatch sender signal args (records w))
    /\ wf w'
    /\ records w'
       = records w
         ++ flat_map connected (reentered slot_body sender signal args (records w)).
Proof.
  intros Hw Hconn Hroom.
  destruct (fireAllSlots_connects _ growth slot_body sender signal args w
              Hw Hconn Hroom) as (w' & Hfire & Hrun).
  destruct (run_calls_connects growth _ w Hw Hconn Hroom)
    as (w'' & Hrun' & Hwf & _ & _ & Hrec).
  rewrite Hrun in Hrun'. injection Hrun' as <-.
  exists w'. auto.
Qed.

Lemma emission_with_connecting_slots_witness :
  exists w',
    fireAllSlots doubling binding_slots 1 5 42 three_receivers
    = Some (w', dispatch 1 5 42 (records three_receivers))
    /\ wf w'
    /\ records w'
       = records three_receivers
         ++ flat_map connected
              (reentered binding_slots 1 5 42 (records three_receivers)).
Proof.
  apply (emission_with_connecting_slots doubling binding_slots 1 5 42
           three_receivers).
  - repeat apply wf_connect. apply wf_empty_channel.
  - by_evaluation.
  - vm_compute. lia.
Defined.

(** C8, as stated, fails: the slot of receiver [2] disconnects its own
    binding and connects receiver [9].  The emission under way then passes
    over the record of receiver [3], which was in the channel at its start,
    and calls the slot of receiver [9], which was not. *)
Lemma emission_is_not_a_snapshot :
  (exists w',
     fireAllSlots doubling rebinding_slots 1 5 42 three_receivers
     = Some (w', [{| callee := 2; method := 6; arguments := 42 |};
                  {| callee := 4; method := 6; arguments := 42 |};
                  {| callee := 9; method := 6; arguments := 42 |}]))
  /\ dispatch 1 5 42 (records three_receivers)
     = [{| callee := 2; method := 6; arguments := 42 |};
        {| callee := 3; method := 6; arguments := 42 |};
        {| callee := 4; method := 6; arguments := 42 |}]
  /\ ~ exists w',
         fireAllSlots doubling rebinding_slots 1 5 42 three_receivers
         = Some (w', dispatch 1 5 42 (records three_receivers)).
Proof.
  split; [|split].
  - eexists. vm_compute. reflexivity.
  - reflexivity.
  - intros [w' H]. vm_compute in H. discriminate H.
Qed.

(** A [connect] made by a slot while the block is full moves the vector to a
    new block; the walk, which goes on in the old one, has no outcome. *)
Lemma emission_with_reallocating_connect :
  fireAllSlots doubling binding_slots 1 5 42
    (connect doubling 1 3 5 6 (connect doubling 1 2 5 6 empty_channel))
  = None.
Proof. reflexivity. Qed.

(** ** disconnect of a tuple connected more than once *)

(** C1, on the code: with the tuple connected twice and another record behind
    the two, one [disconnect] of the tuple removes the first of the two
    records and steps over the second, which has moved into the place of the
    first; an emission afterwards still calls the tuple's slot. *)
Theorem disconnect_leaves_second_duplicate :
  records twice_bound = [tuple 1 2 5 6; tuple 1 2 5 6; tuple 1 3 5 6]
  /\ exists w',
       disconnect 1 2 5 6 twice_bound = Some w'
       /\ records w' = [tuple 1 2 5 6; tuple 1 3 5 6]
       /\ fireAllSlots doubling plain_slots 1 5 7 w'
          = Some (w', [{| callee := 2; method := 6; arguments := 7 |};
                       {| callee := 3; method := 6; arguments := 7 |}]).
Proof.
  split; [reflexivity|]. eexists. split; [vm_compute; reflexivity|].
  split; reflexivity.
Qed.

(** With the two records of the tuple alone in the channel, the walk reads
    the second record a second time, in the slot the end has moved away from,
    and asks [erase] for a position that is no longer in the vector. *)
Lemma disconnect_of_two_duplicates_alone :
  disconnect 1 2 5 6
    (connect doubling 1 2 5 6 (connect doubling 1 2 5 6 empty_channel))
  = None.
Proof. reflexivity. Qed.

(** * Further properties of the code *)

(** ** What one step of disconnect does to the records *)

(** One iteration of the loop of [disconnect] leaves the records as they
    are, or takes out the record at the position of the walk, which passes
    the test, and deletes its object. *)
Lemma disconnect_step_records sender receiver signal slot iterator w w' :
  wf w ->
  disconnect_step sender receiver signal slot iterator w = Some w' ->
  w' = w
  \/ exists q c,
       elements (_connections w) !! iterator = Some q
       /\ records w !! iterator = Some c
       /\ exact_match sender receiver signal slot c = true
       /\ objects w' = delete_Connection (objects w) q
       /\ elements (_connections w') = delete iterator (elements (_connections w))
       /\ records w' = delete iterator (records w).
Proof.
  intros Hw. unfold disconnect_step.
  destruct (vec_data (_connections w) !! iterator) as [q|] eqn:Hq; [|discriminate].
  destruct (deref (objects w) q) as [c|] eqn:Hc; [|discriminate].
  destruct (exact_match sender receiver signal slot c) eqn:Hm;
    [|intros [= <-]; now left].
  destruct (erase iterator (_connections w)) as [v|] eqn:He; [|discriminate].
  intros [= <-]. right.
  destruct (erase_elements _ _ _ (wf_size w Hw) He) as (Hi & Hel & _).
  assert (Hqi : elements (_connections w) !! iterator = Some q)
    by (unfold elements; rewrite lookup_take_lt; assumption).
  pose proof (elements_records w Hw) as Hrec.
  destruct (Forall2_lookup_l _ _ _ _ _ Hrec Hqi) as (c' & Hci & Hc').
  assert (c' = c) by congruence. subst c'.
  exists q, c. simpl. rewrite Hel, <- delete_take_drop.
  repeat (split; [assumption || reflexivity|]).
  apply Forall2_deref_records. simpl. rewrite Hel.
  rewrite delete_take_drop. apply Forall2_deref_delete.
  - pose proof (wf_distinct w Hw) as Hnd.
    rewrite <- (take_drop_middle _ _ _ Hqi) in Hnd.
    apply NoDup_app in Hnd. destruct Hnd as (_ & Hd & Hnd).
    apply NoDup_cons in Hnd. destruct Hnd as [Hq2 _].
    intros Hin. apply elem_of_app in Hin. destruct Hin as [Hin|Hin].
    + apply (Hd q Hin). left.
    + contradiction.
  - apply Forall2_app; [now apply Forall2_take | now apply Forall2_drop].
Qed.

Lemma filter_delete_passing {A} (test : A -> bool) (l : list A) i c :
  l !! i = Some c -> test c = true ->
  List.filter (fun x => negb (test x)) (delete i l)
  = List.filter (fun x => negb (test x)) l.
Proof.
  intros Hi Hc. rewrite delete_take_drop.
  rewrite <- (take_drop_middle _ _ _ Hi) at 3.
  rewrite !List.filter_app. simpl. now rewrite Hc.
Qed.

Lemma disconnect_loop_keeps_others sender receiver signal slot remaining :
  forall iterator w w',
  wf w ->
  disconnect_loop sender receiver signal slot remaining iterator w = Some w' ->
  List.filter (fun c => negb (exact_match sender receiver signal slot c)) (records w')
  = List.filter (fun c => negb (exact_match sender receiver signal slot c)) (records w)
  /\ records w' `sublist_of` records w.
Proof.
  induction remaining as [|n IH]; intros iterator w w' Hw; simpl.
  - intros [= <-]. split; reflexivity.
  - destruct (disconnect_step sender receiver signal slot iterator w)
      as [w1|] eqn:Hstep; [|discriminate].
    intros Hloop.
    pose proof (wf_disconnect_step _ _ _ _ _ _ _ Hw Hstep) as Hw1.
    destruct (IH _ _ _ Hw1 Hloop) as [Hf Hs].
    destruct (disconnect_step_records _ _ _ _ _ _ _ Hw Hstep)
      as [->|(q & c & _ & Hc & Hm & _ & _ & Hrec)]; [now split|].
    rewrite Hrec in Hf, Hs. split.
    + rewrite Hf. eapply filter_delete_passing; eassumption.
    + etransitivity; [exact Hs|]. apply sublist_delete.
Qed.



(** ** Invariants of the operations *)

Lemma fire_step_run_calls {Args} growth slot_body sender signal (args : Args)
    blk pos w w1 cs :
  fire_step growth slot_body sender signal args blk pos w = Some (w1, cs) ->
  exists os, run_calls growth os w = Some w1.
Proof.
  unfold fire_step, fireSlot.
  destruct (decide (blk = vec_block (_connections w))); [|discriminate].
  destruct (vec_data (_connections w) !! pos) as [p|]; [|discriminate].
  destruct (nonnull sender && nonnull p);
    [|intros [= <- _]; now exists []].
  destruct (deref (objects w) p) as [c|]; [|discriminate].
  destruct (isSender c sender && isSignal c signal);
    [|intros [= <- _]; now exists []].
  destruct (nonnull (_receiver c) && nonnull (_slot c));
    [|intros [= <- _]; now exists []].
  destruct (run_calls growth (slot_body (_receiver c) (_slot c) args) w)
    as [w3|] eqn:Hrun; [|discriminate].
  intros [= <- _]. eauto.
Qed.

(** What the registry calls of the slots keep, an emission keeps. *)
Lemma fire_loop_invariant {Args} growth slot_body sender signal (args : Args)
    (I : channel -> Prop) :
  (forall os w w', I w -> run_calls growth os w = Some w' -> I w') ->
  forall remaining blk pos w w' calls,
  I w ->
  fire_loop growth slot_body sender signal args remaining blk pos w
  = Some (w', calls) ->
  I w'.
Proof.
  intros Hrun. induction remaining as [|n IH]; intros blk pos w w' calls Hw; simpl.
  - now intros [= <- _].
  - destruct (fire_step growth slot_body sender signal args blk pos w)
      as [[w1 cs1]|] eqn:Hstep; [|discriminate].
    destruct (fire_loop growth slot_body sender signal args n blk (S pos) w1)
      as [[w2 cs2]|] eqn:Hloop; [|discriminate].
    intros [= <- _]. apply IH in Hloop; [exact Hloop|].
    destruct (fire_step_run_calls _ _ _ _ _ _ _ _ _ _ Hstep) as [os Hos].
    eapply Hrun; eassumption.
Qed.

Lemma deref_app_inv h c p c' :
  deref (h ++ [Some c]) p = Some c' ->
  deref h p = Some c' \/ p = S (length h).
Proof.
  destruct p as [|i]; [discriminate|]. rewrite !deref_S.
  destruct (decide (i < length h)) as [Hlt|Hge].
  - rewrite lookup_app_l by assumption. now left.
  - destruct (decide (i = length h)) as [->|Hne]; [now right|].
    rewrite lookup_ge_None_2 by (rewrite length_app; simpl; lia). discriminate.
Qed.

Lemma tracked_empty_channel : tracked empty_channel.
Proof. intros p [c Hc]. destruct p; discriminate. Qed.

Lemma tracked_connect growth sender receiver signal slot w :
  wf w -> tracked w -> tracked (connect growth sender receiver signal slot w).
Proof.
  intros Hw Ht p [c Hc]. rewrite connect_elements by assumption.
  rewrite connect_objects in Hc. apply deref_app_inv in Hc.
  apply elem_of_app. destruct Hc as [Hc| ->].
  - left. apply Ht. eauto.
  - right. left.
Qed.

Lemma tracked_disconnect_step sender receiver signal slot iterator w w' :
  wf w -> tracked w ->
  disconnect_step sender receiver signal slot iterator w = Some w' ->
  tracked w'.
Proof.
  intros Hw Ht Hstep.
  destruct (disconnect_step_records _ _ _ _ _ _ _ Hw Hstep)
    as [->|(q & c & Hq & _ & _ & Hobj & Hel & _)]; [exact Ht|].
  intros p [d Hd]. rewrite Hobj in Hd. rewrite Hel.
  assert (Hne : p <> q) by (intros ->; now rewrite deref_delete_eq in Hd).
  rewrite deref_delete_ne in Hd by assumption.
  assert (Hin : p ∈ elements (_connections w)) by (apply Ht; eauto).
  rewrite <- (take_drop_middle _ _ _ Hq) in Hin. rewrite delete_take_drop.
  apply elem_of_app in Hin. apply elem_of_app.
  destruct Hin as [Hin|Hin]; [now left|].
  apply elem_of_cons in Hin. destruct Hin as [->|Hin]; [contradiction|now right].
Qed.

Lemma sound_disconnect_loop sender receiver signal slot remaining :
  forall iterator w w',
  wf w /\ tracked w ->
  disconnect_loop sender receiver signal slot remaining iterator w = Some w' ->
  wf w' /\ tracked w'.
Proof.
  induction remaining as [|n IH]; intros iterator w w' [Hw Ht]; simpl.
  - now intros [= <-].
  - destruct (disconnect_step sender receiver signal slot iterator w)
      as [w1|] eqn:Hstep; [|discriminate].
    apply IH. split.
    + eapply wf_disconnect_step; eassumption.
    + eapply tracked_disconnect_step; eassumption.
Qed.

Lemma sound_run_calls growth os :
  forall w w',
  wf w /\ tracked w -> run_calls growth os w = Some w' -> wf w' /\ tracked w'.
Proof.
  induction os as [|o os IH]; intros w w' [Hw Ht]; simpl.
  - now intros [= <-].
  - destruct (run_call growth o w) as [w1|] eqn:Ho; [|discriminate].
    apply IH. destruct o; simpl in Ho.
    + injection Ho as <-. split; [now apply wf_connect | now apply tracked_connect].
    + eapply sound_disconnect_loop; [split; eassumption | exact Ho].
Qed.

(** X1.  The vector and the heap stay in step: every element of the vector
    points to a connection that has not been deleted, no pointer is in the
    vector twice, and every connection that is allocated and not deleted is
    an element of the vector.  [connect] keeps this.  [disconnect] returns
    and keeps it when the last record of the channel is not a record of the
    tuple or is the only one: what it erases it deletes, and what it steps
    over stays in the vector.  An emission returns and keeps it when the
    slots it calls only call [connect] and the block has room for what they
    add. *)
Theorem operations_keep_vector_and_heap_in_step {Args} growth slot_body
    sender receiver signal slot (args : Args) w :
  wf w -> tracked w ->
  (wf (connect growth sender receiver signal slot w)
   /\ tracked (connect growth sender receiver signal slot w))
  /\ ((forall c, last (records w) = Some c ->
         exact_match sender receiver signal slot c = false)
      \/ (forall l c, records w = l ++ [c] ->
            Forall (fun d => exact_match sender receiver signal slot d = false) l) ->
      exists w',
        disconnect sender receiver signal slot w = Some w'
        /\ wf w' /\ tracked w')
  /\ (Forall (fun o => is_Connect o = true)
        (reentered slot_body sender signal args (records w)) ->
      vec_size (_connections w)
        + length (reentered slot_body sender signal args (records w))
        <= vec_capacity (_connections w) ->
      exists w' calls,
        fireAllSlots growth slot_body sender signal args w = Some (w', calls)
        /\ wf w' /\ tracked w').
Proof.
  intros Hw Ht. split; [|split].
  - split; [now apply wf_connect | now apply tracked_connect].
  - intros Hlast.
    destruct (disconnect_sweeps sender receiver signal slot w Hw Hlast)
      as (w' & Hd & Hw' & _).
    exists w'. split; [exact Hd|]. split; [exact Hw'|].
    apply (sound_disconnect_loop _ _ _ _ _ _ _ _ (conj Hw Ht) Hd).
  - intros Hconn Hroom.
    destruct (fireAllSlots_connects _ growth slot_body sender signal args w
                Hw Hconn Hroom) as (w' & Hfire & Hrun).
    exists w', (dispatch sender signal args (records w)).
    split; [exact Hfire|].
    apply (sound_run_calls growth _ _ _ (conj Hw Ht) Hrun).
Qed.

Lemma operations_keep_vector_and_heap_in_step_witness :
  (wf (connect doubling 1 3 5 6 three_receivers)
   /\ tracked (connect doubling 1 3 5 6 three_receivers))
  /\ (exists w',
        disconnect 1 3 5 6 three_receivers = Some w' /\ wf w' /\ tracked w')
  /\ (exists w' calls,
        fireAllSlots doubling binding_slots 1 5 42 three_receivers
        = Some (w', calls)
        /\ wf w' /\ tracked w').
Proof.
  destruct (operations_keep_vector_and_heap_in_step doubling binding_slots
              1 3 5 6 42 three_receivers) as (H1 & H2 & H3).
  - repeat apply wf_connect. apply wf_empty_channel.
  - repeat (apply tracked_connect; [repeat apply wf_connect; apply wf_empty_channel|]).
    apply tracked_empty_channel.
  - split; [exact H1|]. split.
    + apply H2. left. intros c Hc. vm_compute in Hc. injection Hc as <-.
      reflexivity.
    + apply H3; [by_evaluation | vm_compute; lia].
Defined.

(** ** When disconnect removes every record of the tuple *)

Lemma separated_tail test c l :
  separated test (c :: l) = true -> separated test l = true.
Proof. simpl. intros H. apply andb_true_iff in H. tauto. Qed.

Lemma sweep_separated test n :
  forall l, length l <= n ->
  separated test l = true ->
  sweep test l = List.filter (fun c => negb (test c)) l.
Proof.
  induction n as [|n IH]; intros l Hn Hsep.
  { destruct l; [reflexivity | simpl in Hn; lia]. }
  destruct l as [|c l']; [reflexivity|].
  pose proof (separated_tail _ _ _ Hsep) as Hsep'.
  simpl in Hn. cbn [sweep List.filter].
  destruct (test c) eqn:Hc; simpl.
  - destruct l' as [|d l'']; [reflexivity|].
    simpl in Hsep. rewrite Hc in Hsep. simpl in Hsep.
    destruct (test d) eqn:Hd; [discriminate|]. simpl. rewrite Hd. simpl.
    f_equal. apply IH; [simpl in Hn; lia|].
    now apply separated_tail in Hsep'.
  - f_equal. apply IH; [lia | exact Hsep'].
Qed.

Lemma not_in_filter_other sender receiver signal slot (l : list Connection) :
  tuple sender receiver signal slot
  ∉ List.filter (fun c => negb (exact_match sender receiver signal slot c)) l.
Proof.
  intros Hin. apply list_elem_of_In, List.filter_In in Hin.
  destruct Hin as [_ Hin].
  assert (H : exact_match sender receiver signal slot
                (tuple sender receiver signal slot) = true)
    by now apply exact_match_tuple.
  rewrite H in Hin. discriminate.
Qed.



(** ** connect and disconnect, one after the other *)

Lemma quiet_records {Args} slot_body sender signal (args : Args) w w' :
  (forall c, c ∈ records w' -> c ∈ records w) ->
  quiet slot_body sender signal args w -> quiet slot_body sender signal args w'.
Proof. intros Hsub Hq c Hc. apply Hq. now apply Hsub. Qed.

(** X5.  [connect] of a tuple that the channel does not hold, followed by
    [disconnect] of the same tuple, gives back the records the channel had,
    and an emission afterwards calls what it would have called before. *)
Theorem connect_then_disconnect_restores_records {Args} growth slot_body
    sender receiver signal slot emitter emitted (args : Args) w :
  wf w ->
  tuple sender receiver signal slot ∉ records w ->
  quiet slot_body emitter emitted args w ->
  exists w',
    disconnect sender receiver signal slot
      (connect growth sender receiver signal slot w) = Some w'
    /\ wf w'
    /\ records w' = records w
    /\ fireAllSlots growth slot_body emitter emitted args w'
       = Some (w', dispatch emitter emitted args (records w))
    /\ fireAllSlots growth slot_body emitter emitted args w
       = Some (w, dispatch emitter emitted args (records w)).
Proof.
  intros Hw Hno Hq.
  destruct (disconnect_removes_single_binding sender receiver signal slot
              (connect growth sender receiver signal slot w) (records w) [])
    as (w' & Hd & Hw' & Hrec).
  - now apply wf_connect.
  - now apply records_connect.
  - exact Hno.
  - apply not_elem_of_nil.
  - rewrite app_nil_r in Hrec.
    exists w'. split; [exact Hd|]. split; [exact Hw'|]. split; [exact Hrec|].
    split.
    + rewrite <- Hrec. apply fireAllSlots_quiet; [exact Hw'|].
      eapply quiet_records; [|exact Hq]. intros c. now rewrite Hrec.
    + now apply fireAllSlots_quiet.
Qed.

Lemma connect_then_disconnect_restores_records_witness :
  exists w',
    disconnect 1 9 5 6 (connect doubling 1 9 5 6 three_receivers) = Some w'
    /\ wf w'
    /\ records w' = records three_receivers
    /\ fireAllSlots doubling plain_slots 1 5 42 w'
       = Some (w', dispatch 1 5 42 (records three_receivers))
    /\ fireAllSlots doubling plain_slots 1 5 42 three_receivers
       = Some (three_receivers, dispatch 1 5 42 (records three_receivers)).
Proof.
  apply (connect_then_disconnect_restores_records doubling plain_slots
           1 9 5 6 1 5 42 three_receivers).
  - repeat apply wf_connect. apply wf_empty_channel.
  - by_evaluation.
  - apply plain_slots_quiet.
Defined.



(** ** disconnect of a tuple whose two records end the channel *)

(** X7.  When the last two records of the channel are records of the tuple,
    and there is no other, [disconnect] has no outcome: having erased the
    first of the two, the walk reads the second in the slot the end has moved
    away from, deletes its object and asks [erase] for the position of
    [end()]. *)
Theorem disconnect_of_trailing_duplicates sender receiver signal slot w l :
  wf w ->
  records w = l ++ [tuple sender receiver signal slot;
                    tuple sender receiver signal slot] ->
  tuple sender receiver signal slot ∉ l ->
  disconnect sender receiver signal slot w = None.
Proof.
  intros Hw Hrec Hl.
  pose proof (elements_records w Hw) as Hel. rewrite Hrec in Hel.
  apply Forall2_app_inv_r in Hel. destruct Hel as (mid & lq & Hmid & Hq & Hels).
  apply Forall2_cons_inv_r in Hq. destruct Hq as (q1 & lq' & Hq1 & Hq & ->).
  apply Forall2_cons_inv_r in Hq. destruct Hq as (q2 & nil' & Hq2 & Hnil & ->).
  apply Forall2_nil_inv_r in Hnil. subst nil'.
  pose proof (wf_size w Hw) as Hsize.
  assert (Hlen : vec_size (_connections w) = length mid + 2).
  { assert (H : length (elements (_connections w)) = length (mid ++ [q1; q2]))
      by now rewrite Hels.
    unfold elements in H. rewrite length_take, length_app in H. simpl in H. lia. }
  assert (Hdata : vec_data (_connections w)
                  = mid ++ q1 :: q2 :: drop (vec_size (_connections w))
                                        (vec_data (_connections w))).
  { rewrite <- (take_drop (vec_size (_connections w)) (vec_data (_connections w)))
      at 1.
    fold (elements (_connections w)). rewrite Hels, <- app_assoc. reflexivity. }
  set (junk := drop (vec_size (_connections w)) (vec_data (_connections w))) in *.
  assert (Ht : exact_match sender receiver signal slot
                 (tuple sender receiver signal slot) = true)
    by now apply exact_match_tuple.
  assert (Hne : q2 <> q1).
  { pose proof (wf_distinct w Hw) as Hnd. rewrite Hels in Hnd.
    apply NoDup_app in Hnd. destruct Hnd as (_ & _ & Hnd).
    apply NoDup_cons in Hnd. destruct Hnd as [Hnd _].
    intros ->. apply Hnd. left. }
  set (w1 := {| objects := delete_Connection (objects w) q1;
                _connections :=
                  {| vec_data := mid ++ [q2] ++ q2 :: junk;
                     vec_size := vec_size (_connections w) - 1;
                     vec_capacity := vec_capacity (_connections w);
                     vec_block := vec_block (_connections w) |} |}).
  assert (Hstep1 : disconnect_step sender receiver signal slot (length mid) w
                   = Some w1).
  { unfold disconnect_step.
    rewrite Hdata at 1. rewrite (list_lookup_middle mid _ q1) by reflexivity.
    rewrite Hq1, Ht. unfold erase. rewrite decide_True by lia.
    unfold w1. do 3 f_equal.
    fold (elements (_connections w)). rewrite Hels.
    rewrite Hdata at 1. rewrite take_app_length. f_equal. f_equal.
    - change (mid ++ [q1; q2]) with (mid ++ [q1] ++ [q2]).
      rewrite (app_assoc mid [q1] [q2]). apply drop_app_length'.
      rewrite length_app. simpl. lia.
    - rewrite Hlen, Hdata.
      change (mid ++ q1 :: q2 :: junk) with (mid ++ [q1] ++ q2 :: junk).
      rewrite (app_assoc mid [q1] (q2 :: junk)). apply drop_app_length'.
      rewrite length_app. simpl. lia. }
  assert (Hstep2 : disconnect_step sender receiver signal slot (S (length mid)) w1
                   = None).
  { unfold disconnect_step, w1. cbn [vec_data _connections objects].
    rewrite (app_assoc mid [q2] (q2 :: junk)).
    rewrite (list_lookup_middle (mid ++ [q2]) junk q2)
      by (rewrite length_app; simpl; lia).
    rewrite deref_delete_ne by assumption. rewrite Hq2, Ht.
    unfold erase. cbn [vec_size]. now rewrite decide_False by lia. }
  unfold disconnect. rewrite Hlen, disconnect_loop_app.
  rewrite (disconnect_loop_no_match sender receiver signal slot mid 0 w).
  - simpl. now rewrite Hstep1, Hstep2.
  - intros i p Hp. simpl. rewrite Hdata. now apply lookup_app_l_Some.
  - eapply Forall2_Forall_l; [exact Hmid|].
    eapply Forall_impl; [apply (exact_match_other _ _ _ _ _ Hl)|].
    intros d Hd p Hp. eauto.
Qed.

Lemma disconnect_of_trailing_duplicates_witness :
  disconnect 1 2 5 6
    (connect doubling 1 2 5 6 (connect doubling 1 2 5 6
       (connect doubling 1 3 5 6 empty_channel)))
  = None.
Proof.
  apply (disconnect_of_trailing_duplicates 1 2 5 6 _ [tuple 1 3 5 6]).
  - repeat apply wf_connect. apply wf_empty_channel.
  - reflexivity.
  - by_evaluation.
Defined.

(** ** More on emission *)

Lemma dispatch_none {Args} sender signal (args : Args) l :
  Forall (fun c => fired sender signal c = false) l ->
  dispatch sender signal args l = [].
Proof.
  induction 1 as [|c l Hc _ IH]; [reflexivity|].
  now rewrite dispatch_cons, Hc, IH.
Qed.

(** X8.  An emission of a signal of a sender for which the channel holds no
    record calls nothing and leaves the channel as it is, whatever the slots
    of the program do. *)
Theorem emit_without_listener_is_noop {Args} growth slot_body
    sender signal (args : Args) w :
  wf w ->
  (forall c, c ∈ records w -> isSender c sender && isSignal c signal = false) ->
  fireAllSlots growth slot_body sender signal args w = Some (w, []).
Proof.
  intros Hw Hno.
  assert (Hf : Forall (fun c => fired sender signal c = false) (records w)).
  { apply Forall_forall. intros c Hc. unfold fired.
    rewrite (Hno c Hc). apply andb_false_r. }
  rewrite (fireAllSlots_quiet _ growth slot_body); [|exact Hw|].
  - now rewrite dispatch_none.
  - intros c Hc Hfc.
    rewrite (proj1 (Forall_forall _ _) Hf c Hc) in Hfc. discriminate.
Qed.

Lemma emit_without_listener_is_noop_witness :
  fireAllSlots doubling rebinding_slots 7 5 42 three_receivers
  = Some (three_receivers, []).
Proof.
  apply emit_without_listener_is_noop.
  - repeat apply wf_connect. apply wf_empty_channel.
  - apply Forall_forall. by_evaluation.
Defined.

Lemma calls_to_dispatch_count {Args} sender receiver signal slot (args : Args) l :
  sender <> nullptr -> receiver <> nullptr -> slot <> nullptr ->
  calls_to receiver slot (dispatch sender signal args l)
  = replicate (length (List.filter (exact_match sender receiver signal slot) l))
      {| callee := receiver; method := slot; arguments := args |}.
Proof.
  intros Hs Hr Hh. induction l as [|c l IH]; [reflexivity|].
  change (c :: l) with ([c] ++ l) at 1.
  rewrite dispatch_app, calls_to_app, IH. simpl.
  destruct (exact_match sender receiver signal slot c) eqn:Hm.
  - apply exact_match_tuple in Hm. subst c.
    destruct (calls_to_dispatch_replicate sender receiver signal slot args 1)
      as [H1 H2]; try assumption.
    change [tuple sender receiver signal slot]
      with (replicate 1 (tuple sender receiver signal slot)).
    now rewrite H1, H2.
  - rewrite calls_to_dispatch_absent; [reflexivity|].
    intros Hin. apply list_elem_of_singleton in Hin.
    symmetry in Hin. apply exact_match_tuple in Hin. congruence.
Qed.



Lemma fire_step_one_call {Args} growth slot_body sender signal (args : Args)
    blk pos w w1 cs :
  fire_step growth slot_body sender signal args blk pos w = Some (w1, cs) ->
  length cs <= 1 /\ Forall (fun i => arguments i = args) cs.
Proof.
  unfold fire_step, fireSlot.
  destruct (decide (blk = vec_block (_connections w))); [|discriminate].
  destruct (vec_data (_connections w) !! pos) as [p|]; [|discriminate].
  destruct (nonnull sender && nonnull p);
    [|intros [= _ <-]; split; [simpl; lia | constructor]].
  destruct (deref (objects w) p) as [c|]; [|discriminate].
  destruct (isSender c sender && isSignal c signal);
    [|intros [= _ <-]; split; [simpl; lia | constructor]].
  destruct (nonnull (_receiver c) && nonnull (_slot c));
    [|intros [= _ <-]; split; [simpl; lia | constructor]].
  destruct (run_calls growth (slot_body (_receiver c) (_slot c) args) w);
    [|discriminate].
  intros [= _ <-]. split; [simpl; lia | repeat constructor].
Qed.

Lemma fire_loop_calls {Args} growth slot_body sender signal (args : Args) remaining :
  forall blk pos w w' calls,
  fire_loop growth slot_body sender signal args remaining blk pos w
  = Some (w', calls) ->
  length calls <= remaining /\ Forall (fun i => arguments i = args) calls.
Proof.
  induction remaining as [|n IH]; intros blk pos w w' calls; simpl.
  - intros [= _ <-]. split; [simpl; lia | constructor].
  - destruct (fire_step growth slot_body sender signal args blk pos w)
      as [[w1 cs1]|] eqn:Hstep; [|discriminate].
    destruct (fire_loop growth slot_body sender signal args n blk (S pos) w1)
      as [[w2 cs2]|] eqn:Hloop; [|discriminate].
    intros [= _ <-].
    destruct (fire_step_one_call _ _ _ _ _ _ _ _ _ _ Hstep) as [H1 H2].
    destruct (IH _ _ _ _ _ Hloop) as [H3 H4].
    split; [rewrite length_app; lia | now apply Forall_app].
Qed.

(** X11.  Whatever the slots do to the registry, an emission that returns
    has made at most as many calls as the vector had elements when the
    emission began, and every one of them with the arguments of the
    emission: records that slots connect meanwhile cannot make the walk
    longer. *)
Theorem emission_calls_bounded_by_size_at_entry {Args} growth slot_body
    sender signal (args : Args) w w' calls :
  fireAllSlots growth slot_body sender signal args w = Some (w', calls) ->
  length calls <= vec_size (_connections w)
  /\ Forall (fun i => arguments i = args) calls.
Proof. apply fire_loop_calls. Qed.

Lemma emission_calls_bounded_by_size_at_entry_witness :
  length [{| callee := 2; method := 6; arguments := 42 |};
          {| callee := 4; method := 6; arguments := 42 |};
          {| callee := 9; method := 6; arguments := 42 |}]
    <= vec_size (_connections three_receivers)
  /\ Forall (fun i => arguments i = 42)
       [{| callee := 2; method := 6; arguments := 42 |};
        {| callee := 4; method := 6; arguments := 42 |};
        {| callee := 9; method := 6; arguments := 42 |}].
Proof.
  eapply (emission_calls_bounded_by_size_at_entry doubling rebinding_slots
            1 5 42 three_receivers).
  vm_compute. reflexivity.
Defined.

(** ** A slot that disconnects its own binding *)

Lemma fire_loop_app {Args} growth slot_body sender signal (args : Args) a b :
  forall blk pos w,
  fire_loop growth slot_body sender signal args (a + b) blk pos w
  = match fire_loop growth slot_body sender signal args a blk pos w with
    | Some (w1, calls1) =>
        match fire_loop growth slot_body sender signal args b blk (pos + a) w1 with
        | Some (w2, calls2) => Some (w2, calls1 ++ calls2)
        | None => None
        end
    | None => None
    end.
Proof.
  induction a as [|a IH]; intros blk pos w; simpl.
  - rewrite Nat.add_0_r.
    now destruct (fire_loop growth slot_body sender signal args b blk pos w)
      as [[w2 c2]|].
  - destruct (fire_step growth slot_body sender signal args blk pos w)
      as [[w1 c1]|]; [|reflexivity].
    rewrite IH. replace (S pos + a) with (pos + S a) by lia.
    destruct (fire_loop growth slot_body sender signal args a blk (S pos) w1)
      as [[w2 c2]|]; [|reflexivity].
    destruct (fire_loop growth slot_body sender signal args b blk (pos + S a) w2)
      as [[w3 c3]|]; [|reflexivity].
    now rewrite app_assoc.
Qed.

Lemma reentered_none {Args} slot_body sender signal (args : Args) l :
  Forall (fun c => fired sender signal c = true ->
                   handler_body slot_body args c = []) l ->
  reentered slot_body sender signal args l = [].
Proof.
  induction 1 as [|c l Hc _ IH]; [reflexivity|].
  rewrite reentered_cons, IH, app_nil_r.
  destruct (fired sender signal c); [now apply Hc | reflexivity].
Qed.

(** X12.  A slot may disconnect the binding it is called through when that
    binding is the last record of the channel and the only record of its
    tuple: the emission calls the slots of all records that were in the
    channel, the slot in question last, and returns with that record
    removed.  (The other slots reached make no registry call.) *)
Theorem emission_with_last_slot_disconnecting_itself {Args} growth slot_body
    sender receiver signal slot (args : Args) w l :
  wf w ->
  records w = l ++ [tuple sender receiver signal slot] ->
  tuple sender receiver signal slot ∉ l ->
  sender <> nullptr -> receiver <> nullptr -> slot <> nullptr ->
  slot_body receiver slot args = [Disconnect sender receiver signal slot] ->
  Forall (fun c => fired sender signal c = true ->
                   handler_body slot_body args c = []) l ->
  exists w',
    fireAllSlots growth slot_body sender signal args w
    = Some (w', dispatch sender signal args (records w))
    /\ wf w'
    /\ records w' = l.
Proof.
  intros Hw Hrec Hl Hs Hr Hh Hbody Hquiet.
  pose proof (elements_records w Hw) as Hel. rewrite Hrec in Hel.
  apply Forall2_app_inv_r in Hel. destruct Hel as (mid & lq & Hmid & Hq & Hels).
  apply Forall2_cons_inv_r in Hq. destruct Hq as (q & nil' & Hq & Hnil & ->).
  apply Forall2_nil_inv_r in Hnil. subst nil'.
  pose proof (wf_size w Hw) as Hsize. pose proof (wf_capacity w Hw) as Hcap.
  assert (Hlen : vec_size (_connections w) = length mid + 1).
  { assert (H : length (elements (_connections w)) = length (mid ++ [q]))
      by now rewrite Hels.
    unfold elements in H. rewrite length_take, length_app in H. simpl in H. lia. }
  assert (Hdata : forall i p, (mid ++ [q]) !! i = Some p ->
            vec_data (_connections w) !! i = Some p).
  { intros i p Hp. rewrite <- Hels in Hp. unfold elements in Hp.
    apply lookup_take_Some in Hp. tauto. }
  destruct (disconnect_last_only sender receiver signal slot w l
              (tuple sender receiver signal slot) Hw Hrec)
    as (w' & Hd & Hw' & Hrec').
  { now apply exact_match_other. }
  { now apply exact_match_tuple. }
  pose proof (reentered_none slot_body sender signal args l Hquiet) as Hre.
  destruct (fire_loop_connects _ growth slot_body sender signal args mid l 0 w Hw)
    as (w1 & Hloop & Hrun).
  { simpl. lia. }
  { intros i p Hp. simpl. apply Hdata. now apply lookup_app_l_Some. }
  { exact Hmid. }
  { rewrite Hre. constructor. }
  { rewrite Hre. simpl. lia. }
  rewrite Hre in Hrun. simpl in Hrun. injection Hrun as <-.
  exists w'. split; [|split; [exact Hw' | exact Hrec']].
  unfold fireAllSlots. rewrite Hlen, fire_loop_app, Hloop. simpl.
  unfold fire_step. rewrite decide_True by reflexivity.
  rewrite (Hdata (length mid) q) by now apply list_lookup_middle.
  assert (Hqn : nonnull q = true).
  { apply deref_bound in Hq. destruct q; [lia | reflexivity]. }
  rewrite (nonnull_true _ Hs), Hqn, Hq. simpl.
  unfold isSender, isSignal. simpl. rewrite !Nat.eqb_refl. simpl.
  unfold fireSlot. simpl.
  rewrite (nonnull_true _ Hr), (nonnull_true _ Hh), Hbody. simpl.
  rewrite Hd. rewrite Hrec, dispatch_app. do 3 f_equal.
  rewrite dispatch_cons, fired_tuple by assumption.
  unfold handler_calls. simpl.
  now rewrite (nonnull_true _ Hr), (nonnull_true _ Hh).
Qed.

Lemma emission_with_last_slot_disconnecting_itself_witness :
  exists w',
    fireAllSlots doubling one_shot_slots 1 5 42 three_receivers
    = Some (w', dispatch 1 5 42 (records three_receivers))
    /\ wf w'
    /\ records w' = [tuple 1 2 5 6; tuple 1 3 5 6].
Proof.
  apply (emission_with_last_slot_disconnecting_itself doubling one_shot_slots
           1 4 5 6 42 three_receivers [tuple 1 2 5 6; tuple 1 3 5 6]).
  - repeat apply wf_connect. apply wf_empty_channel.
  - reflexivity.
  - by_evaluation.
  - unfold nullptr. lia.
  - unfold nullptr. lia.
  - unfold nullptr. lia.
  - reflexivity.
  - repeat constructor.
Defined.

(** ** Repeating disconnect *)

Lemma filter_length_sublist {A} (f : A -> bool) (l1 l2 : list A) :
  l1 `sublist_of` l2 ->
  length (List.filter f l1) <= length (List.filter f l2).
Proof.
  induction 1 as [|x l1 l2 _ IH|x l1 l2 _ IH]; simpl.
  - lia.
  - destruct (f x); simpl; lia.
  - destruct (f x); simpl; lia.
Qed.

(** X13.  A [disconnect] that returns has removed the first record of the
    tuple in the channel, if there is one: the channel holds fewer records
    of the tuple than before, so repeating the call takes out the records
    that one call steps over. *)
Theorem disconnect_removes_first_record sender receiver signal slot w w' l1 l2 :
  wf w ->
  records w = l1 ++ tuple sender receiver signal slot :: l2 ->
  tuple sender receiver signal slot ∉ l1 ->
  disconnect sender receiver signal slot w = Some w' ->
  records w' `sublist_of` l1 ++ l2
  /\ length (List.filter (exact_match sender receiver signal slot) (records w'))
     < length (List.filter (exact_match sender receiver signal slot) (records w)).
Proof.
  intros Hw Hrec Hl1 Hd.
  pose proof (elements_records w Hw) as Hel. rewrite Hrec in Hel.
  apply Forall2_app_inv_r in Hel. destruct Hel as (mid & lq & Hmid & Hq & Hels).
  apply Forall2_cons_inv_r in Hq. destruct Hq as (q & rest & Hq & Hrest & ->).
  pose proof (wf_size w Hw) as Hsize.
  assert (Hlen : vec_size (_connections w) = length mid + S (length rest)).
  { assert (H : length (elements (_connections w)) = length (mid ++ q :: rest))
      by now rewrite Hels.
    unfold elements in H. rewrite length_take, length_app in H. simpl in H. lia. }
  assert (Hdata : forall i p, (mid ++ q :: rest) !! i = Some p ->
            vec_data (_connections w) !! i = Some p).
  { intros i p Hp. rewrite <- Hels in Hp. unfold elements in Hp.
    apply lookup_take_Some in Hp. tauto. }
  assert (Ht : exact_match sender receiver signal slot
                 (tuple sender receiver signal slot) = true)
    by now apply exact_match_tuple.
  unfold disconnect in Hd. rewrite Hlen, disconnect_loop_app in Hd.
  rewrite (disconnect_loop_no_match sender receiver signal slot mid 0 w) in Hd.
  - simpl in Hd.
    destruct (disconnect_step sender receiver signal slot (length mid) w)
      as [w1|] eqn:Hstep; [|discriminate].
    pose proof (wf_disconnect_step _ _ _ _ _ _ _ Hw Hstep) as Hw1.
    destruct (disconnect_loop_keeps_others _ _ _ _ _ _ _ _ Hw1 Hd) as [_ Hsub].
    assert (Hrec1 : records w1 = l1 ++ l2).
    { destruct (disconnect_step_records _ _ _ _ _ _ _ Hw Hstep)
        as [->|(q' & c & _ & _ & _ & _ & _ & Hr)].
      - exfalso. unfold disconnect_step in Hstep.
        rewrite (Hdata (length mid) q) in Hstep by now apply list_lookup_middle.
        rewrite Hq, Ht in Hstep.
        destruct (erase (length mid) (_connections w)) as [v|] eqn:He.
        + injection Hstep as Hstep.
          apply (f_equal (fun x => vec_size (_connections x))) in Hstep.
          simpl in Hstep. unfold erase in He.
          rewrite decide_True in He by lia. injection He as <-.
          simpl in Hstep. lia.
        + discriminate.
      - rewrite Hr, Hrec, delete_take_drop.
        rewrite (Forall2_length _ _ _ Hmid).
        rewrite take_app_length.
        rewrite cons_middle, app_assoc, drop_app_length'
          by (rewrite length_app; simpl; lia).
        reflexivity. }
    rewrite Hrec1 in Hsub. split; [exact Hsub|].
    pose proof (filter_length_sublist
                  (exact_match sender receiver signal slot) _ _ Hsub) as Hle.
    rewrite Hrec. rewrite !List.filter_app in *. simpl. rewrite Ht.
    rewrite !length_app in *. simpl. lia.
  - intros i p Hp. simpl. apply Hdata. now apply lookup_app_l_Some.
  - eapply Forall2_Forall_l; [exact Hmid|].
    eapply Forall_impl; [apply (exact_match_other _ _ _ _ _ Hl1)|].
    intros d Hd' p Hp. eauto.
Qed.

Lemma disconnect_removes_first_record_witness :
  records {| objects := [None; Some (tuple 1 2 5 6); Some (tuple 1 3 5 6)];
             _connections := {| vec_data := [2; 3; 3]; vec_size := 2;
                                vec_capacity := 4; vec_block := 3 |} |}
    `sublist_of` [] ++ [tuple 1 2 5 6; tuple 1 3 5 6]
  /\ length (List.filter (exact_match 1 2 5 6)
               (records {| objects := [None; Some (tuple 1 2 5 6);
                                       Some (tuple 1 3 5 6)];
                           _connections := {| vec_data := [2; 3; 3];
                                              vec_size := 2;
                                              vec_capacity := 4;
                                              vec_block := 3 |} |}))
     < length (List.filter (exact_match 1 2 5 6) (records twice_bound)).
Proof.
  apply (disconnect_removes_first_record 1 2 5 6 twice_bound _ []
           [tuple 1 2 5 6; tuple 1 3 5 6]).
  - repeat apply wf_connect. apply wf_empty_channel.
  - reflexivity.
  - by_evaluation.
  - reflexivity.
Defined.
